(** * goaux/ticker: a periodic task driver

    A shallow embedding of [task.go] and of the option definitions of the
    package, followed by the properties of [Run].

    - Go's [error] interface is a value of [error] or [nil]; a returned
      [error] is modelled as [option error], [None] being [nil].
    - A [Task] is a nullable closure.  The closure may have side effects, so
      its body is a function on an abstract state [St] of the enclosing
      program.  A task returns; a task that panics or never returns is
      outside the model.
    - [Run] blocks in a [select] between the ticker channel and
      [ctx.Done()].  Which case each successive [select] takes is decided by
      the environment (the clock and the owner of the context, which is
      taken to be a non-nil [context.Context]); it is an input of the model,
      a [schedule].  A finite schedule is a prefix of the environment's
      behaviour: when it is used up the call is still blocked in its
      [select], which is the outcome [Blocked].
    - Every effect of [Run] outside its own locals is recorded, in order, in
      the [log] of the [world]: invocations of the task, creation and
      release of the ticker, and the [select] cases taken.  The
      configuration is a local of [Run]; applying an option has no effect
      outside it, except that applying a nil [Option] panics. *)

From Stdlib Require Import ZArith List Bool String Lia.
Import ListNotations.
Local Open Scope Z_scope.

(** ** Errors *)

Module Errors.

(** The dynamic values behind Go's [error] interface that this package
    meets.  [errors.New] and [fmt.Errorf] return pointers, compared by
    address, so each allocation carries its address. *)
Inductive error : Type :=
| errorString (addr : nat) (s : string)
    (* *errors.errorString, from errors.New *)
| wrapError (addr : nat) (msg : string) (err : error)
    (* *fmt.wrapError, from fmt.Errorf with one %w verb *)
| deadlineExceededError
    (* context.deadlineExceededError{} *)
| opaqueError (id : nat).
    (* any other error value of the caller, without Unwrap or Is methods *)

Fixpoint error_eqb (a b : error) : bool :=
  match a, b with
  | errorString p s, errorString q t => Nat.eqb p q && String.eqb s t
  | wrapError p m e, wrapError q n f =>
      Nat.eqb p q && String.eqb m n && error_eqb e f
  | deadlineExceededError, deadlineExceededError => true
  | opaqueError i, opaqueError j => Nat.eqb i j
  | _, _ => false
  end.

(** The [Error()] method. *)
Definition Error (e : error) : string :=
  match e with
  | errorString _ s => s
  | wrapError _ msg _ => msg
  | deadlineExceededError => "context deadline exceeded"
  | opaqueError _ => "error"
  end.

(** [errors.New(text)], allocated at [addr]. *)
Definition New (addr : nat) (text : string) : error := errorString addr text.

(** [fmt.Errorf("%w" ++ suffix, err)], allocated at [addr]. *)
Definition Errorf_w (addr : nat) (suffix : string) (err : error) : error :=
  wrapError addr (Error err ++ suffix) err.

(** [Unwrap]: only [*fmt.wrapError] has the method. *)
Definition Unwrap (e : error) : option error :=
  match e with
  | wrapError _ _ inner => Some inner
  | _ => None
  end.

(** [errors.Is(err, target)] for non-nil arguments: walk the [Unwrap] chain
    of [err], comparing each link with [target]. *)
Fixpoint Is (err target : error) : bool :=
  error_eqb err target ||
  match err with
  | wrapError _ _ inner => Is inner target
  | _ => false
  end.

(** [context.Canceled] and [context.DeadlineExceeded]. *)
Definition Canceled : error := New 0 "context canceled".
Definition DeadlineExceeded : error := deadlineExceededError.

End Errors.
Import Errors.

(** The package's error variables (task.go, the final [var] block). *)
Definition ErrInvalidArgument : error := Errors.New 1 "invalid argument".
Definition ErrNonPositiveInterval : error :=
  Errorf_w 2 ": non-positive interval" ErrInvalidArgument.
Definition ErrNilFunction : error :=
  Errorf_w 3 ": function must not be nil" ErrInvalidArgument.

(** ** Go's [int] *)

(** [int] is taken to be 64 bits wide; arithmetic wraps around. *)
Definition int_min : Z := - 2 ^ 63.
Definition int_max : Z := 2 ^ 63 - 1.
Definition is_int (z : Z) : Prop := int_min <= z <= int_max.
Definition wrap (z : Z) : Z := (z + 2 ^ 63) mod 2 ^ 64 - 2 ^ 63.

(** [limit--] *)
Definition int_dec (limit : Z) : Z := wrap (limit - 1).

(** ** Options and configuration *)

Record config : Type := mkConfig { Immediate : bool; Limit : Z }.

(** An [Option] interface value: one of the package's two implementations
    (no other package can implement the unexported [apply]), or the nil
    interface. *)
Inductive Option : Type :=
| immediate (v : bool)
| limit (v : Z)
| nil_Option.

Definition WithImmediate (v : bool) : Option := immediate v.
Definition WithLimit (v : Z) : Option := limit v.

(** [opt.apply(c)]; [None] is the run-time panic of a method call on the
    nil interface. *)
Definition apply (opt : Option) (c : config) : option config :=
  match opt with
  | immediate o => Some {| Immediate := o; Limit := Limit c |}
  | limit o => Some {| Immediate := Immediate c; Limit := o |}
  | nil_Option => None
  end.

(** [for _, opt := range options { opt.apply(c) }] *)
Fixpoint apply_all (options : list Option) (c : config) : option config :=
  match options with
  | [] => Some c
  | opt :: rest =>
      match apply opt c with
      | Some c' => apply_all rest c'
      | None => None
      end
  end.

(** [c := &config{Limit: -1}] followed by the loop over the options. *)
Definition configure (options : list Option) : option config :=
  apply_all options {| Immediate := false; Limit := -1 |}.

(** ** The environment and the world *)

(** The case a [select] statement of the periodic phase takes. *)
Inductive selected : Type :=
| Tick
    (* case <-t.C *)
| CtxDone (reason : error).
    (* case <-ctx.Done(); [reason] is what ctx.Err() then returns, which the
       Context contract makes non-nil *)

(** The cases taken by the successive [select] statements of one run. *)
Definition schedule : Type := list selected.

(** What [Run] does to the outside, in order. *)
Inductive action : Type :=
| ActInvoke (result : option error)   (* task() returned result *)
| ActNewTicker (d : Z)                (* time.NewTicker(d) *)
| ActSelect (s : selected)            (* a select statement took case s *)
| ActStop.                            (* the deferred t.Stop() *)

(** How a call stands when the schedule has been consumed. *)
Inductive outcome : Type :=
| Returned (err : option error)   (* the call returned err *)
| Panicked                        (* the call panicked *)
| Blocked.                        (* the call is waiting in its select *)

Section Driver.

(** The state the task's closure reads and writes. *)
Variable St : Type.

(** [log] holds the newest action first. *)
Record world : Type := mkWorld { st : St; log : list action }.

Definition record (a : action) (w : world) : world :=
  {| st := st w; log := a :: log w |}.

(** [func() error]: a closure over [St]. *)
Definition func : Type := St -> option error * St.

(** [type Task func() error]; [None] is the nil function value. *)
Definition Task : Type := option func.

(** [func New(task func() error) Task { return Task(task) }] *)
Definition New (task : option func) : Task := task.

(** The call [task()]. *)
Definition invoke (f : func) (w : world) : option error * world :=
  let (r, s) := f (st w) in
  (r, {| st := s; log := ActInvoke r :: log w |}).

(** The results of the invocations made so far, newest first. *)
Fixpoint results (l : list action) : list (option error) :=
  match l with
  | [] => []
  | ActInvoke r :: l' => r :: results l'
  | _ :: l' => results l'
  end.

Definition invocations (w : world) : nat := List.length (results (log w)).

(** [t := time.NewTicker(d); defer t.Stop()] around the rest of the body: the
    deferred call runs when the function returns, on every path. *)
Definition with_ticker (d : Z) (body : world -> outcome * world) (w : world)
  : outcome * world :=
  let (o, w') := body (record (ActNewTicker d) w) in
  match o with
  | Blocked => (Blocked, w')
  | _ => (o, record ActStop w')
  end.

(** The [for ; limit > 0; limit--] loop of [runLimit]. *)
Fixpoint runLimit_loop (f : func) (limit : Z) (sched : schedule) (w : world)
  : outcome * world :=
  if 0 <? limit then
    match sched with
    | [] => (Blocked, w)
    | Tick :: sched' =>
        match invoke f (record (ActSelect Tick) w) with
        | (Some err, w') => (Returned (Some err), w')
        | (None, w') => runLimit_loop f (int_dec limit) sched' w'
        end
    | CtxDone reason :: _ =>
        (Returned (Some reason), record (ActSelect (CtxDone reason)) w)
    end
  else (Returned None, w).

(** [func (task Task) runLimit(ctx, d, c) error] *)
Definition runLimit (f : func) (sched : schedule) (d : Z) (c : config)
  (w : world) : outcome * world :=
  let limit := Limit c in
  if Immediate c then
    match invoke f w with
    | (Some err, w') => (Returned (Some err), w')
    | (None, w') =>
        let limit := int_dec limit in
        if limit =? 0 then (Returned None, w')
        else with_ticker d (runLimit_loop f limit sched) w'
    end
  else with_ticker d (runLimit_loop f limit sched) w.

(** The [for { select ... }] loop of [run]. *)
Fixpoint run_loop (f : func) (sched : schedule) (w : world)
  : outcome * world :=
  match sched with
  | [] => (Blocked, w)
  | Tick :: sched' =>
      match invoke f (record (ActSelect Tick) w) with
      | (Some err, w') => (Returned (Some err), w')
      | (None, w') => run_loop f sched' w'
      end
  | CtxDone reason :: _ =>
      (Returned (Some reason), record (ActSelect (CtxDone reason)) w)
  end.

(** [func (task Task) run(ctx, d, c) error] *)
Definition run (f : func) (sched : schedule) (d : Z) (c : config)
  (w : world) : outcome * world :=
  if Immediate c then
    match invoke f w with
    | (Some err, w') => (Returned (Some err), w')
    | (None, w') => with_ticker d (run_loop f sched) w'
    end
  else with_ticker d (run_loop f sched) w.

(** [func (task Task) Run(ctx, d, options...) error].  The context and the
    clock appear as the schedule. *)
Definition Run (task : Task) (sched : schedule) (d : Z)
  (options : list Option) (w : world) : outcome * world :=
  if d <=? 0 then (Returned (Some ErrNonPositiveInterval), w)
  else
    match task with
    | None => (Returned (Some ErrNilFunction), w)
    | Some f =>
        match configure options with
        | None => (Panicked, w)
        | Some c =>
            if Limit c =? 0 then (Returned None, w)
            else if 0 <? Limit c then runLimit f sched d c w
            else run f sched d c w
        end
    end.

End Driver.

Arguments mkWorld {St} _ _.
Arguments st {St} _.
Arguments log {St} _.
Arguments record {St} _ _.
Arguments New {St} _.
Arguments invoke {St} _ _.
Arguments invocations {St} _.
Arguments with_ticker {St} _ _ _.
Arguments runLimit_loop {St} _ _ _ _.
Arguments runLimit {St} _ _ _ _ _.
Arguments run_loop {St} _ _ _.
Arguments run {St} _ _ _ _ _.
Arguments Run {St} _ _ _ _ _.

(** ** Predicates on runs *)

Definition no_failure (l : list action) : Prop :=
  Forall (fun r => r = None) (results l).

(** Either no invocation has failed, or the newest one has, it is the only
    one, and the call has returned its error. *)
Definition failure_is_last (o : outcome) (l : list action) : Prop :=
  no_failure l
  \/ exists e rs, results l = Some e :: rs
                  /\ Forall (fun r => r = None) rs
                  /\ o = Returned (Some e).

(** A piece of the driver started without a failed invocation behind it
    ends in a state where a failed invocation, if any, is the last. *)
Definition ends_on_failure {St : Type}
  (body : world St -> outcome * world St) : Prop :=
  forall w, no_failure (log w) ->
            failure_is_last (fst (body w)) (log (snd (body w))).

(** A piece of the driver that is blocked on the schedule [pre] returns the
    context's reason when the next [select] takes the context's case;
    [after] is what it still does to the world on its way out. *)
Definition stops_on_done {St : Type}
  (body : schedule -> world St -> outcome * world St)
  (after : world St -> world St) : Prop :=
  forall pre reason post w w1,
    body pre w = (Blocked, w1) ->
    body (pre ++ CtxDone reason :: post) w
    = (Returned (Some reason), after (record (ActSelect (CtxDone reason)) w1)).

(** How the [for { select }] loop of [run] can stand: waiting, or returned
    with the error of the invocation just made, or returned with the reason
    of the context's case just taken. *)
Definition loop_exit (o : outcome) (l : list action) : Prop :=
  match o with
  | Blocked => True
  | Returned (Some e) =>
      exists l', l = ActInvoke (Some e) :: l'
                 \/ l = ActSelect (CtxDone e) :: l'
  | _ => False
  end.

(** The same for [run] as a whole: the failed invocation may be the
    immediate one, made before the ticker exists; after the ticker is
    created the deferred [Stop] is the last action. *)
Definition unbounded_exit (o : outcome) (l : list action) : Prop :=
  match o with
  | Blocked => True
  | Returned (Some e) =>
      exists l', l = ActInvoke (Some e) :: l'
                 \/ l = ActStop :: ActInvoke (Some e) :: l'
                 \/ l = ActStop :: ActSelect (CtxDone e) :: l'
  | _ => False
  end.

(** A piece of the driver only adds to the log, at its newest end. *)
Definition extends {St : Type}
  (body : world St -> outcome * world St) : Prop :=
  forall w, exists later, log (snd (body w)) = later ++ log w.

(** ** Option lists and logs, measured *)




Definition count (p : action -> bool) (l : list action) : nat :=
  List.length (filter p l).

Definition is_new_ticker (a : action) : bool :=
  match a with ActNewTicker _ => true | _ => false end.

Definition is_stop (a : action) : bool :=
  match a with ActStop => true | _ => false end.

Definition is_tick (a : action) : bool :=
  match a with ActSelect Tick => true | _ => false end.

(** Tickers created, tickers stopped and ticks received, over a log. *)
Definition tickers_created (l : list action) : nat := count is_new_ticker l.
Definition tickers_stopped (l : list action) : nat := count is_stop l.
Definition ticks_taken (l : list action) : nat := count is_tick l.

(** The tickers a call has created and stopped, against how it stands: a
    blocked call holds its one ticker; a call that is over has stopped the
    ticker it created, if it created one. *)
Definition ticker_balance (o : outcome) (created stopped : nat) : Prop :=
  match o with
  | Blocked => created = 1%nat /\ stopped = 0%nat
  | _ => (created = 0%nat /\ stopped = 0%nat)
         \/ (created = 1%nat /\ stopped = 1%nat)
  end.

(** The state of the closure after [k] invocations in a row. *)
Definition after_invocations {St : Type} (f : func St) (k : nat) (s : St)
  : St :=
  Nat.iter k (fun s' => snd (f s')) s.

(** Whether the immediate invocation is made under configuration [c]. *)
Definition immediate_invocations (c : config) : nat :=
  if Immediate c && negb (Limit c =? 0) then 1%nat else 0%nat.

(** The actions of the periodic phase proper. *)
Definition loop_action (a : action) : bool :=
  match a with
  | ActInvoke _ | ActSelect _ => true
  | _ => false
  end.

(** The shapes of what one call of [Run] with interval [d] adds to the log
    (newest first): nothing or the immediate invocation alone, when no
    ticker is created; or else the immediate invocation if any, the
    ticker, the actions of the loop, and the deferred [Stop] unless the
    call is still blocked. *)
Definition run_shape (o : outcome) (d : Z) (later : list action) : Prop :=
  (o <> Blocked /\ (later = [] \/ exists r, later = [ActInvoke r]))
  \/ (exists init body,
         (init = [] \/ init = [ActInvoke None])
         /\ Forall (fun a => loop_action a = true) body
         /\ 0 < d
         /\ later = (match o with Blocked => [] | _ => [ActStop] end)
                    ++ body ++ ActNewTicker d :: init).

(** What a loop keeps: an invocation for each tick taken, and a state of
    the task that is the initial one after the invocations made. *)
Definition accounted {St : Type} (f : func St)
  (body : world St -> outcome * world St) : Prop :=
  forall w,
    (invocations (snd (body w)) + ticks_taken (log w)
     = invocations w + ticks_taken (log (snd (body w))))%nat
    /\ exists k, invocations (snd (body w)) = (invocations w + k)%nat
                 /\ st (snd (body w)) = after_invocations f k (st w).

(** ** Sample tasks, used to evaluate the model *)

(** A task that counts its invocations and always succeeds. *)
Definition counting : func nat := fun s => (None, S s).

(** A task that counts its invocations and fails with [e] on invocation
    number [k] (counting from 1) and on no other. *)
Definition failing_at (k : nat) (e : error) : func nat :=
  fun s => (if Nat.eqb (S s) k then Some e else None, S s).

Definition fresh : world nat := mkWorld 0%nat [].

(** ** The model on the package's own scenarios *)

(** The package example: [Run(ctx, time.Second, WithLimit(5),
    WithImmediate(true))] under a context that is never cancelled makes five
    invocations and returns nil. *)
Example package_example :
  let r := Run (Some counting) (repeat Tick 10) 1000000000
             [WithLimit 5; WithImmediate true] fresh in
  fst r = Returned None /\ invocations (snd r) = 5%nat.
Proof. vm_compute. split; reflexivity. Qed.

(** The immediate-execution test of the package: interval 100ms, immediate
    invocation, deadline at 150ms.  One tick is taken, then the deadline. *)
Example immediate_then_deadline :
  let r := Run (Some counting) [Tick; CtxDone DeadlineExceeded] 100000000
             [WithImmediate true] fresh in
  fst r = Returned (Some DeadlineExceeded) /\ invocations (snd r) = 2%nat.
Proof. vm_compute. split; reflexivity. Qed.

(** A nil [Option] is dereferenced only after the two argument checks. *)
Example nil_option_panics :
  fst (Run (Some counting) [] 1 [nil_Option] fresh) = Panicked.
Proof. reflexivity. Qed.

(** ** Arithmetic of [int] *)

Lemma wrap_is_int (z : Z) : is_int z -> wrap z = z.
Proof.
  unfold is_int, int_min, int_max, wrap. intros H.
  rewrite Z.mod_small by lia. lia.
Qed.

Lemma int_dec_positive (l : Z) : 0 < l <= int_max -> int_dec l = l - 1.
Proof.
  intros H. unfold int_dec. apply wrap_is_int.
  unfold is_int, int_min, int_max in *. lia.
Qed.

(** ** The log *)

Section Log.

Context {St : Type}.
Implicit Types (w : world St) (f : func St).

Lemma invoke_log f w :
  log (snd (invoke f w)) = ActInvoke (fst (invoke f w)) :: log w.
Proof. unfold invoke. destruct (f (st w)); reflexivity. Qed.

Lemma invoke_fst f w : fst (invoke f w) = fst (f (st w)).
Proof. unfold invoke. destruct (f (st w)); reflexivity. Qed.

Lemma invoke_invocations f w :
  invocations (snd (invoke f w)) = S (invocations w).
Proof. unfold invocations. rewrite invoke_log. reflexivity. Qed.

Lemma invocations_record_select s w :
  invocations (record (ActSelect s) w) = invocations w.
Proof. reflexivity. Qed.

Lemma invocations_record_ticker d w :
  invocations (record (ActNewTicker d) w) = invocations w.
Proof. reflexivity. Qed.

Lemma invocations_record_stop w :
  invocations (record ActStop w) = invocations w.
Proof. reflexivity. Qed.

End Log.

(** ** Argument validation and dispatch *)

Lemma validation_errors_differ : ErrNonPositiveInterval <> ErrNilFunction.
Proof. discriminate. Qed.

(** C2: a non-positive interval makes [Run] return [ErrNonPositiveInterval],
    for every task (nil or not), schedule and option list; a nil task with a
    positive interval makes it return [ErrNilFunction].  In both cases the
    world is returned untouched: nothing was invoked, no ticker was created,
    no [select] was executed, and the options were not applied (an option
    list with a nil entry, whose application panics, gives the same
    result).  When both arguments are wrong the interval error wins: the
    result is not [ErrNilFunction]. *)
Theorem Run_validates_arguments_first {St : Type} (task : Task St)
  (sched : schedule) (d : Z) (options : list Option) (w : world St) :
  (d <= 0 ->
   Run task sched d options w = (Returned (Some ErrNonPositiveInterval), w))
  /\ (0 < d -> task = None ->
      Run task sched d options w = (Returned (Some ErrNilFunction), w))
  /\ (d <= 0 -> task = None ->
      fst (Run task sched d options w) <> Returned (Some ErrNilFunction)).
Proof.
  unfold Run. repeat split.
  - intros Hd. apply Z.leb_le in Hd. rewrite Hd. reflexivity.
  - intros Hd ->. apply Z.leb_gt in Hd. rewrite Hd. reflexivity.
  - intros Hd _. apply Z.leb_le in Hd. rewrite Hd. simpl.
    intros H. inversion H.
Qed.

Lemma Run_validates_arguments_first_witness :
  Run (Some counting) [Tick] 0 [nil_Option; WithImmediate true] fresh
    = (Returned (Some ErrNonPositiveInterval), fresh)
  /\ Run None [Tick] 5 [nil_Option; WithImmediate true] fresh
    = (Returned (Some ErrNilFunction), fresh)
  /\ fst (Run (@None (func nat)) [Tick] (-1) [] fresh)
    <> Returned (Some ErrNilFunction).
Proof.
  split; [| split].
  - apply (Run_validates_arguments_first (Some counting)). lia.
  - apply (Run_validates_arguments_first (@None (func nat)));
      [lia | reflexivity].
  - apply (Run_validates_arguments_first (@None (func nat)));
      [lia | reflexivity].
Defined.

(** C5: with a positive interval, a task that is not nil and options that
    fold to a configuration whose limit is 0, [Run] returns nil at once and
    leaves the world untouched: the task is not invoked, whatever the
    [Immediate] field says. *)
Theorem Run_limit_zero {St : Type} (f : func St) (sched : schedule) (d : Z)
  (options : list Option) (c : config) (w : world St) :
  0 < d ->
  configure options = Some c ->
  Limit c = 0 ->
  Run (Some f) sched d options w = (Returned None, w)
  /\ invocations (snd (Run (Some f) sched d options w)) = invocations w.
Proof.
  intros Hd Hc Hl. unfold Run.
  apply Z.leb_gt in Hd. rewrite Hd, Hc, Hl. simpl. split; reflexivity.
Qed.

Lemma Run_limit_zero_witness :
  Run (Some counting) [Tick; Tick] 7 [WithImmediate true; WithLimit 0] fresh
    = (Returned None, fresh)
  /\ invocations
       (snd (Run (Some counting) [Tick; Tick] 7
               [WithImmediate true; WithLimit 0] fresh)) = invocations fresh.
Proof.
  apply (Run_limit_zero counting [Tick; Tick] 7
           [WithImmediate true; WithLimit 0]
           {| Immediate := true; Limit := 0 |} fresh);
    [lia | reflexivity | reflexivity].
Defined.

(** The unbounded variant never reads the limit. *)
Lemma run_ignores_limit {St : Type} (f : func St) (sched : schedule) (d : Z)
  (c c' : config) (w : world St) :
  Immediate c = Immediate c' -> run f sched d c w = run f sched d c' w.
Proof. unfold run. intros ->. reflexivity. Qed.

(** C7: only the sign of a negative limit matters.  Two option lists that
    fold to the same [Immediate] flag and to negative limits, whichever they
    are, make [Run] behave identically: same outcome, same final world, on
    every schedule.  In particular [WithLimit v] with [v < 0] behaves as the
    default configuration, whose limit is the sentinel -1. *)
Theorem Run_negative_limit_unbounded {St : Type} (task : Task St)
  (sched : schedule) (d : Z) (options options' : list Option)
  (c c' : config) (w : world St) :
  configure options = Some c ->
  configure options' = Some c' ->
  Immediate c = Immediate c' ->
  Limit c < 0 ->
  Limit c' < 0 ->
  Run task sched d options w = Run task sched d options' w.
Proof.
  intros Hc Hc' Hi Hl Hl'. unfold Run. rewrite Hc, Hc'.
  destruct (d <=? 0); [reflexivity |].
  destruct task as [f |]; [| reflexivity].
  assert (E : forall x, x < 0 -> (x =? 0) = false /\ (0 <? x) = false).
  { intros x Hx. split; [apply Z.eqb_neq | apply Z.ltb_ge]; lia. }
  destruct (E _ Hl) as [-> ->]. destruct (E _ Hl') as [-> ->].
  apply run_ignores_limit, Hi.
Qed.

Lemma Run_negative_limit_unbounded_witness :
  Run (Some (failing_at 3 (opaqueError 7))) [Tick; Tick; Tick; Tick] 10
      [WithLimit (-5)] fresh
  = Run (Some (failing_at 3 (opaqueError 7))) [Tick; Tick; Tick; Tick] 10
      [] fresh.
Proof.
  apply (Run_negative_limit_unbounded (Some (failing_at 3 (opaqueError 7)))
           [Tick; Tick; Tick; Tick] 10 [WithLimit (-5)] []
           {| Immediate := false; Limit := -5 |}
           {| Immediate := false; Limit := -1 |} fresh);
    [reflexivity | reflexivity | reflexivity | simpl; lia | simpl; lia].
Defined.

(** C8: [New] returns the nil [Task] exactly when it is given the nil
    function, and it reports nothing itself.  The nil task is refused later:
    [Run] on [New nil], with a positive interval, returns [ErrNilFunction]
    and does nothing else. *)
Theorem New_nil_iff_nil {St : Type} :
  (forall op : option (func St), New op = None <-> op = None)
  /\ (forall (sched : schedule) (d : Z) (options : list Option) (w : world St),
        0 < d ->
        Run (New (@None (func St))) sched d options w
          = (Returned (Some ErrNilFunction), w)).
Proof.
  split.
  - intros op. unfold New. tauto.
  - intros sched d options w Hd. unfold Run, New.
    apply Z.leb_gt in Hd. rewrite Hd. reflexivity.
Qed.

Lemma New_nil_iff_nil_witness :
  (New (@None (func nat)) = None <-> @None (func nat) = None)
  /\ (New (Some counting) = None <-> Some counting = None)
  /\ Run (New (@None (func nat))) [Tick] 3 [WithLimit 2] fresh
       = (Returned (Some ErrNilFunction), fresh).
Proof.
  split; [| split].
  - apply (proj1 (@New_nil_iff_nil nat)).
  - apply (proj1 (@New_nil_iff_nil nat)).
  - apply (proj2 (@New_nil_iff_nil nat)). lia.
Defined.

(** ** The error taxonomy *)

(** C9: both validation errors are [ErrInvalidArgument] for [errors.Is],
    while neither of the context's reasons is, nor is an error value that
    wraps nothing; and whenever [Run] refuses its arguments, the error it
    returns passes that comparison. *)
Theorem validation_errors_are_invalid_argument :
  Is ErrNonPositiveInterval ErrInvalidArgument = true
  /\ Is ErrNilFunction ErrInvalidArgument = true
  /\ Is Canceled ErrInvalidArgument = false
  /\ Is DeadlineExceeded ErrInvalidArgument = false
  /\ (forall id, Is (opaqueError id) ErrInvalidArgument = false)
  /\ (forall (St : Type) (task : Task St) (sched : schedule) (d : Z)
        (options : list Option) (w : world St),
        d <= 0 \/ task = None ->
        exists e, fst (Run task sched d options w) = Returned (Some e)
                  /\ Is e ErrInvalidArgument = true).
Proof.
  repeat split; try reflexivity.
  intros St task sched d options w H. unfold Run.
  destruct (d <=? 0) eqn:Hd.
  - exists ErrNonPositiveInterval. split; reflexivity.
  - destruct H as [H | ->].
    + apply Z.leb_gt in Hd. lia.
    + exists ErrNilFunction. split; reflexivity.
Qed.

Lemma validation_errors_are_invalid_argument_witness :
  exists e, fst (Run (Some counting) [Tick] (-3) [WithLimit 2] fresh)
              = Returned (Some e)
            /\ Is e ErrInvalidArgument = true.
Proof.
  apply (proj2 (proj2 (proj2 (proj2 (proj2
           validation_errors_are_invalid_argument))))).
  left. lia.
Defined.

(** ** The unbounded loop *)

Section Unbounded.

Context {St : Type}.
Implicit Types (w : world St) (f : func St).

Lemma run_loop_never_succeeds f sched w :
  fst (run_loop f sched w) <> Returned None.
Proof.
  revert w. induction sched as [| [| reason] sched IH]; intros w; simpl.
  - discriminate.
  - destruct (invoke f (record (ActSelect Tick) w)) as [[err |] w'].
    + discriminate.
    + apply IH.
  - discriminate.
Qed.

Lemma with_ticker_fst d (body : world St -> outcome * world St) w :
  fst (with_ticker d body w) = fst (body (record (ActNewTicker d) w)).
Proof.
  unfold with_ticker.
  destruct (body (record (ActNewTicker d) w)) as [[err | |] w']; reflexivity.
Qed.

Lemma run_never_succeeds f sched d c w :
  fst (run f sched d c w) <> Returned None.
Proof.
  unfold run. destruct (Immediate c).
  - destruct (invoke f w) as [[err |] w'].
    + discriminate.
    + rewrite with_ticker_fst. apply run_loop_never_succeeds.
  - rewrite with_ticker_fst. apply run_loop_never_succeeds.
Qed.

Lemma run_loop_exit f sched w :
  loop_exit (fst (run_loop f sched w)) (log (snd (run_loop f sched w))).
Proof.
  revert w. induction sched as [| [| reason] sched IH]; intros w; simpl.
  - exact I.
  - pose proof (invoke_log f (record (ActSelect Tick) w)) as L.
    destruct (invoke f (record (ActSelect Tick) w)) as [[err |] w'];
      simpl in L |- *.
    + eexists. left. exact L.
    + apply IH.
  - eexists. right. reflexivity.
Qed.

Lemma with_ticker_exit d (body : world St -> outcome * world St) w :
  loop_exit (fst (body (record (ActNewTicker d) w)))
            (log (snd (body (record (ActNewTicker d) w)))) ->
  unbounded_exit (fst (with_ticker d body w))
                 (log (snd (with_ticker d body w))).
Proof.
  unfold with_ticker.
  destruct (body (record (ActNewTicker d) w)) as [[[e |] | |] w']; simpl;
    try tauto.
  intros [l' [-> | ->]]; exists l'; tauto.
Qed.

Lemma run_exit f sched d c w :
  unbounded_exit (fst (run f sched d c w)) (log (snd (run f sched d c w))).
Proof.
  unfold run. destruct (Immediate c).
  - pose proof (invoke_log f w) as L.
    destruct (invoke f w) as [[err |] w']; simpl in L |- *.
    + eexists. left. exact L.
    + apply with_ticker_exit, run_loop_exit.
  - apply with_ticker_exit, run_loop_exit.
Qed.

(** The unbounded loop does end once the context is done: after ticks on
    which the task succeeds, the first [CtxDone] makes [run_loop] return. *)
Lemma run_loop_returns_on_done f (n : nat) reason rest w :
  (forall s, fst (f s) = None) ->
  exists w', run_loop f (repeat Tick n ++ CtxDone reason :: rest) w
             = (Returned (Some reason), w')
             /\ invocations w' = (invocations w + n)%nat.
Proof.
  intros Hf. revert w. induction n as [| n IH]; intros w; simpl.
  - eexists. split; [reflexivity |]. rewrite invocations_record_select. lia.
  - pose proof (invoke_fst f (record (ActSelect Tick) w)) as E.
    pose proof (invoke_invocations f (record (ActSelect Tick) w)) as I.
    destruct (invoke f (record (ActSelect Tick) w)) as [r w1]. simpl in E, I.
    rewrite Hf in E. subst r.
    destruct (IH w1) as [w' [-> Hn]]. exists w'. split; [reflexivity |].
    rewrite Hn, I, invocations_record_select. lia.
Qed.

End Unbounded.

(** C10: when the options fold to a negative limit, [Run] does not return
    nil, on any schedule and from any world, so a nil return means the limit
    was not negative.  With arguments that pass validation the run is either
    still waiting in its [select] or has returned an error [e] that is the
    task's own (the result of the invocation made last) or the context's
    (the reason of the [select] case taken last). *)
Theorem Run_unbounded_never_succeeds {St : Type} (task : Task St)
  (sched : schedule) (d : Z) (options : list Option) (c : config)
  (w : world St) :
  configure options = Some c ->
  Limit c < 0 ->
  fst (Run task sched d options w) <> Returned None
  /\ (0 < d -> task <> None ->
      unbounded_exit (fst (Run task sched d options w))
                     (log (snd (Run task sched d options w)))).
Proof.
  intros Hc Hl. unfold Run. rewrite Hc.
  replace (Limit c =? 0) with false by (symmetry; apply Z.eqb_neq; lia).
  replace (0 <? Limit c) with false by (symmetry; apply Z.ltb_ge; lia).
  split.
  - destruct (d <=? 0); [discriminate |].
    destruct task as [f |]; [| discriminate].
    apply run_never_succeeds.
  - intros Hd Ht.
    replace (d <=? 0) with false by (symmetry; apply Z.leb_gt; lia).
    destruct task as [f |]; [| congruence].
    apply run_exit.
Qed.

Lemma Run_unbounded_never_succeeds_witness :
  fst (Run (Some counting) [Tick; Tick; CtxDone Canceled] 10
         [WithLimit (-2); WithImmediate true] fresh) <> Returned None
  /\ unbounded_exit
       (fst (Run (Some counting) [Tick; Tick; CtxDone Canceled] 10
               [WithLimit (-2); WithImmediate true] fresh))
       (log (snd (Run (Some counting) [Tick; Tick; CtxDone Canceled] 10
                    [WithLimit (-2); WithImmediate true] fresh))).
Proof.
  pose proof (Run_unbounded_never_succeeds (Some counting)
                [Tick; Tick; CtxDone Canceled] 10
                [WithLimit (-2); WithImmediate true]
                {| Immediate := true; Limit := -2 |} fresh
                eq_refl eq_refl) as [H1 H2].
  split; [exact H1 | apply H2; [reflexivity | discriminate]].
Defined.

(** ** The bounded loop *)

Section Bounded.

Context {St : Type}.
Implicit Types (w : world St) (f : func St).

(** With a task that succeeds, [m] ticks take the loop from a remaining
    count of [m] to its end; what the schedule holds after them is not
    looked at. *)
Lemma runLimit_loop_ticks f (m : nat) rest w :
  (forall s, fst (f s) = None) ->
  Z.of_nat m <= int_max ->
  exists w', runLimit_loop f (Z.of_nat m) (repeat Tick m ++ rest) w
             = (Returned None, w')
             /\ invocations w' = (invocations w + m)%nat.
Proof.
  intros Hf. revert w. induction m as [| m IH]; intros w Hm.
  - exists w. simpl. destruct rest; (split; [reflexivity | lia]).
  - cbn [repeat app runLimit_loop].
    replace (0 <? Z.of_nat (S m)) with true by (symmetry; apply Z.ltb_lt; lia).
    pose proof (invoke_fst f (record (ActSelect Tick) w)) as E.
    pose proof (invoke_invocations f (record (ActSelect Tick) w)) as I.
    destruct (invoke f (record (ActSelect Tick) w)) as [r w1].
    simpl in E, I. rewrite Hf in E. subst r.
    rewrite int_dec_positive by lia.
    replace (Z.of_nat (S m) - 1) with (Z.of_nat m) by lia.
    destruct (IH w1) as [w' [-> Hn]]; [lia |].
    exists w'. split; [reflexivity |].
    rewrite Hn, I, invocations_record_select. lia.
Qed.

(** The loop never makes more invocations than its remaining count. *)
Lemma runLimit_loop_bounded f (l : Z) sched w :
  l <= int_max ->
  (invocations (snd (runLimit_loop f l sched w))
     <= invocations w + Z.to_nat l)%nat.
Proof.
  revert l w. induction sched as [| [| reason] sched IH]; intros l w Hl;
    cbn [runLimit_loop]; destruct (0 <? l) eqn:Hp; simpl; try lia.
  - apply Z.ltb_lt in Hp.
    pose proof (invoke_invocations f (record (ActSelect Tick) w)) as I.
    destruct (invoke f (record (ActSelect Tick) w)) as [[err |] w1];
      simpl in I.
    + simpl. rewrite I, invocations_record_select. lia.
    + specialize (IH (int_dec l) w1).
      rewrite int_dec_positive in * by lia.
      rewrite I, invocations_record_select in IH. lia.
  - rewrite invocations_record_select. lia.
Qed.

(** The loop returns nil only after as many invocations as its remaining
    count. *)
Lemma runLimit_loop_success f (l : Z) sched w :
  0 <= l <= int_max ->
  fst (runLimit_loop f l sched w) = Returned None ->
  invocations (snd (runLimit_loop f l sched w))
  = (invocations w + Z.to_nat l)%nat.
Proof.
  revert l w. induction sched as [| [| reason] sched IH]; intros l w Hl;
    cbn [runLimit_loop]; destruct (0 <? l) eqn:Hp; simpl;
    try discriminate;
    try (apply Z.ltb_ge in Hp; intros _; replace l with 0 by lia;
         simpl; lia).
  apply Z.ltb_lt in Hp.
  pose proof (invoke_invocations f (record (ActSelect Tick) w)) as I.
  destruct (invoke f (record (ActSelect Tick) w)) as [[err |] w1];
    simpl in I; [discriminate |].
  intros H. rewrite IH; rewrite ?int_dec_positive in * by lia;
    [| lia | exact H].
  rewrite I, invocations_record_select. lia.
Qed.

Lemma with_ticker_invocations d (body : world St -> outcome * world St) w :
  invocations (snd (with_ticker d body w))
  = invocations (snd (body (record (ActNewTicker d) w))).
Proof.
  unfold with_ticker.
  destruct (body (record (ActNewTicker d) w)) as [[err | |] w']; reflexivity.
Qed.

Lemma with_ticker_returned d (body : world St -> outcome * world St) w err w' :
  body (record (ActNewTicker d) w) = (Returned err, w') ->
  with_ticker d body w = (Returned err, record ActStop w').
Proof. unfold with_ticker. intros ->. reflexivity. Qed.

End Bounded.

(** The bounded variant as a whole: never more invocations than the limit,
    and a nil return only after exactly that many. *)
Lemma runLimit_count {St : Type} (f : func St) (sched : schedule) (d : Z)
  (c : config) (w : world St) :
  0 < Limit c <= int_max ->
  (invocations (snd (runLimit f sched d c w))
     <= invocations w + Z.to_nat (Limit c))%nat
  /\ (fst (runLimit f sched d c w) = Returned None ->
      invocations (snd (runLimit f sched d c w))
      = (invocations w + Z.to_nat (Limit c))%nat).
Proof.
  intros Hl. unfold runLimit. destruct (Immediate c).
  - pose proof (invoke_invocations f w) as I.
    destruct (invoke f w) as [[err |] w1]; simpl in I.
    + simpl. split; [lia | discriminate].
    + rewrite int_dec_positive by lia.
      destruct (Limit c - 1 =? 0) eqn:H1.
      * apply Z.eqb_eq in H1. simpl. split; [lia |].
        intros _. replace (Limit c) with 1 by lia. simpl. lia.
      * rewrite with_ticker_invocations, with_ticker_fst.
        pose proof (runLimit_loop_bounded f (Limit c - 1) sched
                      (record (ActNewTicker d) w1)) as B.
        pose proof (runLimit_loop_success f (Limit c - 1) sched
                      (record (ActNewTicker d) w1)) as S.
        rewrite invocations_record_ticker, I in B, S.
        split; [lia |]. intros H. rewrite S; [lia | lia | exact H].
  - rewrite with_ticker_invocations, with_ticker_fst.
    pose proof (runLimit_loop_bounded f (Limit c) sched
                  (record (ActNewTicker d) w)) as B.
    pose proof (runLimit_loop_success f (Limit c) sched
                  (record (ActNewTicker d) w)) as S.
    rewrite invocations_record_ticker in B, S.
    split; [lia |]. intros H. apply S; [lia | exact H].
Qed.

(** C1: let the options fold to a limit [n > 0] (an [int]).
    - On every schedule the run holds at most [n] invocations, the
      immediate one included, and [Run] returns nil only with exactly [n].
    - Let the task always succeed.  If the [select] statements reached
      before the [n]-th invocation take their tick ([n] of them, or [n - 1]
      when the immediate invocation is enabled), then [Run] does make
      exactly [n] invocations and returns nil.  The schedule after those
      ticks is arbitrary: the context may be done by then, and it is not
      consulted. *)
Theorem Run_limit_exactly_n {St : Type} (f : func St) (n : Z) (b : bool)
  (d : Z) (options : list Option) (w : world St) :
  0 < d ->
  0 < n <= int_max ->
  configure options = Some {| Immediate := b; Limit := n |} ->
  (forall sched,
      (invocations (snd (Run (Some f) sched d options w))
         <= invocations w + Z.to_nat n)%nat
      /\ (fst (Run (Some f) sched d options w) = Returned None ->
          invocations (snd (Run (Some f) sched d options w))
          = (invocations w + Z.to_nat n)%nat))
  /\ ((forall s, fst (f s) = None) ->
      forall rest, exists w',
        Run (Some f)
            (repeat Tick (Z.to_nat n - (if b then 1 else 0)) ++ rest)
            d options w
        = (Returned None, w')
        /\ invocations w' = (invocations w + Z.to_nat n)%nat).
Proof.
  intros Hd Hn Hc.
  assert (E : forall sched,
             Run (Some f) sched d options w
             = runLimit f sched d {| Immediate := b; Limit := n |} w).
  { intros sched. unfold Run.
    replace (d <=? 0) with false by (symmetry; apply Z.leb_gt; lia).
    rewrite Hc. cbn [Limit].
    replace (n =? 0) with false by (symmetry; apply Z.eqb_neq; lia).
    replace (0 <? n) with true by (symmetry; apply Z.ltb_lt; lia).
    reflexivity. }
  split.
  - intros sched. rewrite E.
    apply (runLimit_count f sched d {| Immediate := b; Limit := n |} w Hn).
  - intros Hf rest. rewrite E.
    unfold runLimit. cbn [Limit Immediate]. destruct b.
    + pose proof (invoke_fst f w) as Er.
      pose proof (invoke_invocations f w) as I.
      destruct (invoke f w) as [r w1]. simpl in Er, I.
      rewrite Hf in Er. subst r. rewrite int_dec_positive by lia.
      destruct (n - 1 =? 0) eqn:H1.
      * apply Z.eqb_eq in H1. exists w1. split; [reflexivity |].
        rewrite I. replace n with 1 by lia. simpl. lia.
      * apply Z.eqb_neq in H1.
        replace (n - 1) with (Z.of_nat (Z.to_nat n - 1)) by lia.
        destruct (runLimit_loop_ticks f (Z.to_nat n - 1) rest
                    (record (ActNewTicker d) w1) Hf) as [w' [E' N']];
          [lia |].
        exists (record ActStop w'). split.
        -- apply with_ticker_returned, E'.
        -- rewrite invocations_record_stop, N', invocations_record_ticker, I.
           lia.
    + rewrite Nat.sub_0_r.
      destruct (runLimit_loop_ticks f (Z.to_nat n) rest
                  (record (ActNewTicker d) w) Hf) as [w' [E' N']]; [lia |].
      rewrite Z2Nat.id in E' by lia.
      exists (record ActStop w'). split.
      * apply with_ticker_returned, E'.
      * rewrite invocations_record_stop, N', invocations_record_ticker.
        reflexivity.
Qed.

Lemma Run_limit_exactly_n_witness :
  exists w',
    Run (Some counting)
        (repeat Tick (Z.to_nat 3 - 1) ++ [CtxDone Canceled; Tick])
        10 [WithLimit 3; WithImmediate true] fresh
    = (Returned None, w')
    /\ invocations w' = (invocations fresh + Z.to_nat 3)%nat.
Proof.
  apply (Run_limit_exactly_n counting 3 true 10
           [WithLimit 3; WithImmediate true] fresh);
    [lia | unfold int_max; lia | reflexivity | reflexivity].
Defined.

(** ** A failed invocation ends the run *)

Section Failure.

Context {St : Type}.
Implicit Types (w : world St) (f : func St).

Lemma invoke_failure f w :
  no_failure (log w) ->
  match invoke f w with
  | (Some e, w') => failure_is_last (Returned (Some e)) (log w')
  | (None, w') => no_failure (log w')
  end.
Proof.
  intros H. pose proof (invoke_log f w) as L.
  destruct (invoke f w) as [[e |] w']; simpl in L.
  - right. exists e, (results (log w)). rewrite L. auto.
  - unfold no_failure. rewrite L. simpl. constructor; auto.
Qed.

Lemma runLimit_loop_failure f l sched :
  ends_on_failure (runLimit_loop f l sched).
Proof.
  revert l. induction sched as [| [| reason] sched IH]; intros l w H;
    cbn [runLimit_loop]; destruct (0 <? l); simpl; try (left; exact H).
  pose proof (invoke_failure f (record (ActSelect Tick) w) H) as I.
  destruct (invoke f (record (ActSelect Tick) w)) as [[e |] w'].
  - exact I.
  - apply IH, I.
Qed.

Lemma run_loop_failure f sched : ends_on_failure (run_loop f sched).
Proof.
  induction sched as [| [| reason] sched IH]; intros w H;
    cbn [run_loop]; simpl; try (left; exact H).
  pose proof (invoke_failure f (record (ActSelect Tick) w) H) as I.
  destruct (invoke f (record (ActSelect Tick) w)) as [[e |] w'].
  - exact I.
  - apply IH, I.
Qed.

Lemma with_ticker_failure d (body : world St -> outcome * world St) :
  ends_on_failure body -> ends_on_failure (with_ticker d body).
Proof.
  intros Hb w H. unfold with_ticker.
  specialize (Hb (record (ActNewTicker d) w) H).
  destruct (body (record (ActNewTicker d) w)) as [[err | |] w']; exact Hb.
Qed.

Lemma runLimit_failure f sched d c : ends_on_failure (runLimit f sched d c).
Proof.
  intros w H. unfold runLimit. destruct (Immediate c).
  - pose proof (invoke_failure f w H) as I.
    destruct (invoke f w) as [[e |] w']; [exact I |].
    destruct (int_dec (Limit c) =? 0); [left; exact I |].
    apply with_ticker_failure; [apply runLimit_loop_failure | exact I].
  - apply with_ticker_failure; [apply runLimit_loop_failure | exact H].
Qed.

Lemma run_failure f sched d c : ends_on_failure (run f sched d c).
Proof.
  intros w H. unfold run. destruct (Immediate c).
  - pose proof (invoke_failure f w H) as I.
    destruct (invoke f w) as [[e |] w']; [exact I |].
    apply with_ticker_failure; [apply run_loop_failure | exact I].
  - apply with_ticker_failure; [apply run_loop_failure | exact H].
Qed.

Lemma Run_failure (task : Task St) sched d options :
  ends_on_failure (Run task sched d options).
Proof.
  intros w H. unfold Run.
  destruct (d <=? 0); [left; exact H |].
  destruct task as [f |]; [| left; exact H].
  destruct (configure options) as [c |]; [| left; exact H].
  destruct (Limit c =? 0); [left; exact H |].
  destruct (0 <? Limit c);
    [apply runLimit_failure | apply run_failure]; exact H.
Qed.

End Failure.

Lemma failure_is_last_nth (o : outcome) (l : list action) (k : nat)
  (e : error) :
  failure_is_last o l ->
  nth_error (rev (results l)) k = Some (Some e) ->
  o = Returned (Some e) /\ List.length (results l) = S k.
Proof.
  intros [H | [e' [rs [E [H ->]]]]] Hk.
  - apply nth_error_In, in_rev in Hk.
    unfold no_failure in H. rewrite Forall_forall in H.
    specialize (H _ Hk). discriminate.
  - rewrite E in *. simpl in Hk.
    destruct (Nat.lt_ge_cases k (List.length (rev rs))) as [Hlt | Hge].
    + rewrite nth_error_app1 in Hk by exact Hlt.
      apply nth_error_In, in_rev in Hk.
      rewrite Forall_forall in H. specialize (H _ Hk). discriminate.
    + rewrite nth_error_app2 in Hk by exact Hge.
      rewrite length_rev in *.
      destruct (k - List.length rs)%nat as [| j] eqn:Ej; simpl in Hk.
      * inversion Hk; subst. split; [reflexivity |]. simpl. lia.
      * destruct j; discriminate.
Qed.

(** C3: list the results of the invocations of a run in the order they were
    made.  On every schedule, for every option list (bounded, unbounded,
    with or without the immediate invocation), if the invocation at
    position [k] of that list (the first being at position 0) returned the
    error [e], then [Run] has returned [e] itself and the run holds exactly
    [k + 1] invocations: none follows the failed one, however many ticks
    the schedule still offers. *)
Theorem Run_returns_task_error {St : Type} (task : Task St)
  (sched : schedule) (d : Z) (options : list Option) (s : St)
  (k : nat) (e : error) :
  nth_error
    (rev (results (log (snd (Run task sched d options (mkWorld s []))))))
    k = Some (Some e) ->
  fst (Run task sched d options (mkWorld s [])) = Returned (Some e)
  /\ invocations (snd (Run task sched d options (mkWorld s []))) = S k.
Proof.
  apply failure_is_last_nth, Run_failure. constructor.
Qed.

Lemma Run_returns_task_error_witness :
  (fst (Run (Some (failing_at 3 (opaqueError 7))) (repeat Tick 6) 10
          [WithLimit 5] fresh) = Returned (Some (opaqueError 7))
   /\ invocations (snd (Run (Some (failing_at 3 (opaqueError 7)))
                          (repeat Tick 6) 10 [WithLimit 5] fresh)) = 3%nat)
  /\ (fst (Run (Some (failing_at 3 (opaqueError 7))) (repeat Tick 6) 10
             [] fresh) = Returned (Some (opaqueError 7))
      /\ invocations (snd (Run (Some (failing_at 3 (opaqueError 7)))
                             (repeat Tick 6) 10 [] fresh)) = 3%nat)
  /\ (fst (Run (Some (failing_at 1 (opaqueError 7))) (repeat Tick 6) 10
             [WithImmediate true] fresh) = Returned (Some (opaqueError 7))
      /\ invocations (snd (Run (Some (failing_at 1 (opaqueError 7)))
                             (repeat Tick 6) 10 [WithImmediate true] fresh))
         = 1%nat).
Proof.
  split; [| split].
  - apply (Run_returns_task_error (Some (failing_at 3 (opaqueError 7)))
             (repeat Tick 6) 10 [WithLimit 5] 0%nat 2 (opaqueError 7)).
    reflexivity.
  - apply (Run_returns_task_error (Some (failing_at 3 (opaqueError 7)))
             (repeat Tick 6) 10 [] 0%nat 2 (opaqueError 7)).
    reflexivity.
  - apply (Run_returns_task_error (Some (failing_at 1 (opaqueError 7)))
             (repeat Tick 6) 10 [WithImmediate true] 0%nat 0 (opaqueError 7)).
    reflexivity.
Defined.

(** ** Cancellation at the wait point *)

Section Cancellation.

Context {St : Type}.
Implicit Types (w : world St) (f : func St).

Lemma runLimit_loop_done f l :
  stops_on_done (runLimit_loop f l) (fun w => w).
Proof.
  intros pre reason post. revert l.
  induction pre as [| [| r] pre IH]; intros l w w1;
    cbn [app runLimit_loop]; destruct (0 <? l); try discriminate.
  - intros H. inversion H; subst. reflexivity.
  - destruct (invoke f (record (ActSelect Tick) w)) as [[e |] w'];
      [discriminate | apply IH].
Qed.

Lemma run_loop_done f : stops_on_done (run_loop f) (fun w => w).
Proof.
  intros pre reason post.
  induction pre as [| [| r] pre IH]; intros w w1;
    cbn [app run_loop]; try discriminate.
  - intros H. inversion H; subst. reflexivity.
  - destruct (invoke f (record (ActSelect Tick) w)) as [[e |] w'];
      [discriminate | apply IH].
Qed.

Lemma with_ticker_blocked d (body : world St -> outcome * world St) w w1 :
  with_ticker d body w = (Blocked, w1) ->
  body (record (ActNewTicker d) w) = (Blocked, w1).
Proof.
  unfold with_ticker.
  destruct (body (record (ActNewTicker d) w)) as [[err | |] w'];
    intros H; inversion H; subst; reflexivity.
Qed.

Lemma with_ticker_done d
  (body : schedule -> world St -> outcome * world St) :
  stops_on_done body (fun w => w) ->
  stops_on_done (fun sched => with_ticker d (body sched)) (record ActStop).
Proof.
  intros Hb pre reason post w w1 H.
  apply with_ticker_blocked in H.
  apply with_ticker_returned, Hb, H.
Qed.

Lemma runLimit_done f d c :
  stops_on_done (fun sched => runLimit f sched d c) (record ActStop).
Proof.
  intros pre reason post w w1. unfold runLimit. destruct (Immediate c).
  - destruct (invoke f w) as [[e |] w']; [discriminate |].
    destruct (int_dec (Limit c) =? 0); [discriminate |].
    apply (with_ticker_done d _ (runLimit_loop_done f _)).
  - apply (with_ticker_done d _ (runLimit_loop_done f _)).
Qed.

Lemma run_done f d c :
  stops_on_done (fun sched => run f sched d c) (record ActStop).
Proof.
  intros pre reason post w w1. unfold run. destruct (Immediate c).
  - destruct (invoke f w) as [[e |] w']; [discriminate |].
    apply (with_ticker_done d _ (run_loop_done f)).
  - apply (with_ticker_done d _ (run_loop_done f)).
Qed.

Lemma Run_done (task : Task St) d options :
  stops_on_done (fun sched => Run task sched d options) (record ActStop).
Proof.
  intros pre reason post w w1. unfold Run.
  destruct (d <=? 0); [discriminate |].
  destruct task as [f |]; [| discriminate].
  destruct (configure options) as [c |]; [| discriminate].
  destruct (Limit c =? 0); [discriminate |].
  destruct (0 <? Limit c); [apply runLimit_done | apply run_done].
Qed.

End Cancellation.

Lemma context_reasons_differ : Canceled <> DeadlineExceeded.
Proof. discriminate. Qed.

(** C4: let a run stand at its wait point: on the schedule [pre] the call is
    blocked in its [select], in world [w1].  If the next [select] takes the
    context's case with reason [reason], whatever the schedule holds after
    it, [Run] returns [reason] itself, be it [Canceled] or
    [DeadlineExceeded], which are different values.  The final world is
    [w1] with the [select] and the deferred [Stop] added: no invocation is
    made after the cancellation, and the invocations made before it, with
    their effect on the task's state, are all there. *)
Theorem Run_returns_context_reason {St : Type} (task : Task St)
  (pre post : schedule) (reason : error) (d : Z) (options : list Option)
  (w w1 : world St) :
  Run task pre d options w = (Blocked, w1) ->
  Run task (pre ++ CtxDone reason :: post) d options w
  = (Returned (Some reason),
     record ActStop (record (ActSelect (CtxDone reason)) w1))
  /\ invocations (snd (Run task (pre ++ CtxDone reason :: post) d options w))
     = invocations w1
  /\ st (snd (Run task (pre ++ CtxDone reason :: post) d options w)) = st w1
  /\ Canceled <> DeadlineExceeded.
Proof.
  intros H. rewrite (Run_done task d options pre reason post w w1 H).
  repeat split. discriminate.
Qed.

Lemma Run_returns_context_reason_witness :
  Run (Some counting) ([Tick; Tick] ++ CtxDone DeadlineExceeded :: [Tick])
      10 [WithLimit 5; WithImmediate true] fresh
  = (Returned (Some DeadlineExceeded),
     record ActStop
       (record (ActSelect (CtxDone DeadlineExceeded))
          (snd (Run (Some counting) [Tick; Tick] 10
                  [WithLimit 5; WithImmediate true] fresh))))
  /\ invocations
       (snd (Run (Some counting)
               ([Tick; Tick] ++ CtxDone DeadlineExceeded :: [Tick])
               10 [WithLimit 5; WithImmediate true] fresh)) = 3%nat.
Proof.
  pose proof (Run_returns_context_reason (Some counting) [Tick; Tick] [Tick]
                DeadlineExceeded 10 [WithLimit 5; WithImmediate true] fresh
                (snd (Run (Some counting) [Tick; Tick] 10
                        [WithLimit 5; WithImmediate true] fresh))
                eq_refl) as [H1 [H2 _]].
  split; [exact H1 | exact H2].
Defined.

(** ** The immediate invocation *)

Section ImmediatePhase.

Context {St : Type}.
Implicit Types (w : world St) (f : func St).

Lemma runLimit_loop_extends f l sched : extends (runLimit_loop f l sched).
Proof.
  revert l. induction sched as [| [| reason] sched IH]; intros l w;
    cbn [runLimit_loop]; destruct (0 <? l); simpl;
    try (exists []; reflexivity).
  - pose proof (invoke_log f (record (ActSelect Tick) w)) as L.
    destruct (invoke f (record (ActSelect Tick) w)) as [[e |] w'];
      simpl in L.
    + exists [ActInvoke (Some e); ActSelect Tick]. exact L.
    + destruct (IH (int_dec l) w') as [later E].
      exists (later ++ [ActInvoke None; ActSelect Tick]).
      rewrite E, L, <- app_assoc. reflexivity.
  - exists [ActSelect (CtxDone reason)]. reflexivity.
Qed.

Lemma run_loop_extends f sched : extends (run_loop f sched).
Proof.
  induction sched as [| [| reason] sched IH]; intros w;
    cbn [run_loop]; simpl; try (exists []; reflexivity).
  - pose proof (invoke_log f (record (ActSelect Tick) w)) as L.
    destruct (invoke f (record (ActSelect Tick) w)) as [[e |] w'];
      simpl in L.
    + exists [ActInvoke (Some e); ActSelect Tick]. exact L.
    + destruct (IH w') as [later E].
      exists (later ++ [ActInvoke None; ActSelect Tick]).
      rewrite E, L, <- app_assoc. reflexivity.
  - exists [ActSelect (CtxDone reason)]. reflexivity.
Qed.

Lemma with_ticker_extends d (body : world St -> outcome * world St) :
  extends body -> extends (with_ticker d body).
Proof.
  intros Hb w. unfold with_ticker.
  destruct (Hb (record (ActNewTicker d) w)) as [later E].
  destruct (body (record (ActNewTicker d) w)) as [[err | |] w'];
    simpl in *; rewrite E.
  - exists (ActStop :: later ++ [ActNewTicker d]).
    simpl. rewrite <- app_assoc. reflexivity.
  - exists (ActStop :: later ++ [ActNewTicker d]).
    simpl. rewrite <- app_assoc. reflexivity.
  - exists (later ++ [ActNewTicker d]). rewrite <- app_assoc. reflexivity.
Qed.

End ImmediatePhase.

(** C6: let the interval be positive, the task not nil, and the options
    fold to [Immediate = true] and a limit other than 0.  Then the first
    thing [Run] does is one invocation of the task, with result [r]:
    everything else in the log, ticker creation and [select]s included,
    comes later.
    - If [r] is an error, [Run] returns it and has done nothing else.
    - If [r] is nil and the limit is 1, [Run] returns nil and has done
      nothing else: no ticker, no [select].
    - If [r] is nil and the limit is an [int] greater than 1, the run goes
      on with a ticker and the bounded loop for [limit - 1] further
      invocations, so that the run never holds more than [limit]
      invocations.
    - If [r] is nil and the limit is negative, the run goes on with a ticker
      and the unbounded loop. *)
Theorem Run_immediate_first {St : Type} (f : func St) (sched : schedule)
  (d : Z) (options : list Option) (c : config) (w : world St) :
  0 < d ->
  configure options = Some c ->
  Immediate c = true ->
  Limit c <> 0 ->
  let r := fst (f (st w)) in
  let w1 := snd (invoke f w) in
  let final := Run (Some f) sched d options w in
  (exists later, log (snd final) = later ++ ActInvoke r :: log w)
  /\ (forall e, r = Some e -> final = (Returned (Some e), w1))
  /\ (r = None -> Limit c = 1 -> final = (Returned None, w1))
  /\ (r = None -> 1 < Limit c <= int_max ->
      final = with_ticker d (runLimit_loop f (Limit c - 1) sched) w1
      /\ (invocations (snd final) <= invocations w + Z.to_nat (Limit c))%nat)
  /\ (r = None -> Limit c < 0 ->
      final = with_ticker d (run_loop f sched) w1).
Proof.
  intros Hd Hc Hi Hl r w1 final.
  assert (E : final = if 0 <? Limit c then runLimit f sched d c w
                      else run f sched d c w).
  { unfold final, Run.
    replace (d <=? 0) with false by (symmetry; apply Z.leb_gt; lia).
    rewrite Hc.
    replace (Limit c =? 0) with false by (symmetry; apply Z.eqb_neq; lia).
    reflexivity. }
  clearbody final. subst final. unfold runLimit, run. rewrite Hi.
  pose proof (invoke_fst f w) as Er. fold r in Er.
  pose proof (invoke_log f w) as L. rewrite Er in L.
  pose proof (invoke_invocations f w) as I.
  subst w1. destruct (invoke f w) as [r' w1]. simpl in Er, L, I |- *.
  subst r'. clearbody r.
  split; [| split; [| split; [| split]]].
  - destruct r as [e |].
    + exists []. destruct (0 <? Limit c); exact L.
    + destruct (0 <? Limit c).
      * destruct (int_dec (Limit c) =? 0); [exists []; exact L |].
        destruct (with_ticker_extends d _
                    (runLimit_loop_extends f (int_dec (Limit c)) sched) w1)
          as [later E].
        exists later. rewrite E, L. reflexivity.
      * destruct (with_ticker_extends d _ (run_loop_extends f sched) w1)
          as [later E].
        exists later. rewrite E, L. reflexivity.
  - intros e ->. destruct (0 <? Limit c); reflexivity.
  - intros -> H1. rewrite H1. reflexivity.
  - intros -> H1.
    replace (0 <? Limit c) with true by (symmetry; apply Z.ltb_lt; lia).
    rewrite int_dec_positive by lia.
    replace (Limit c - 1 =? 0) with false by (symmetry; apply Z.eqb_neq; lia).
    split; [reflexivity |].
    rewrite with_ticker_invocations.
    pose proof (runLimit_loop_bounded f (Limit c - 1) sched
                  (record (ActNewTicker d) w1)) as B.
    rewrite invocations_record_ticker, I in B. lia.
  - intros -> H1.
    replace (0 <? Limit c) with false by (symmetry; apply Z.ltb_ge; lia).
    reflexivity.
Qed.

Lemma Run_immediate_first_witness :
  (exists later,
      log (snd (Run (Some (failing_at 1 (opaqueError 7))) [Tick; Tick] 10
                  [WithImmediate true; WithLimit 2] fresh))
      = later ++ ActInvoke (Some (opaqueError 7)) :: [])
  /\ Run (Some (failing_at 1 (opaqueError 7))) [Tick; Tick] 10
       [WithImmediate true; WithLimit 2] fresh
     = (Returned (Some (opaqueError 7)),
        mkWorld 1%nat [ActInvoke (Some (opaqueError 7))])
  /\ Run (Some counting) [Tick; Tick] 10
       [WithImmediate true; WithLimit 1] fresh
     = (Returned None, mkWorld 1%nat [ActInvoke None]).
Proof.
  split; [| split].
  - apply (Run_immediate_first (failing_at 1 (opaqueError 7)) [Tick; Tick] 10
             [WithImmediate true; WithLimit 2]
             {| Immediate := true; Limit := 2 |} fresh);
      [lia | reflexivity | reflexivity | simpl; lia].
  - apply (Run_immediate_first (failing_at 1 (opaqueError 7)) [Tick; Tick] 10
             [WithImmediate true; WithLimit 2]
             {| Immediate := true; Limit := 2 |} fresh);
      [lia | reflexivity | reflexivity | simpl; lia | reflexivity].
  - apply (Run_immediate_first counting [Tick; Tick] 10
             [WithImmediate true; WithLimit 1]
             {| Immediate := true; Limit := 1 |} fresh);
      [lia | reflexivity | reflexivity | simpl; lia | reflexivity
       | reflexivity].
Defined.

(** * Further properties of the package *)

(** ** Assembling the configuration *)



(** X2: appending [WithLimit v] to an option list that folds to [c] sets the
    limit to [v] and keeps [Immediate]; appending [WithImmediate b] sets
    [Immediate] to [b] and keeps the limit. *)
Theorem configure_append (options : list Option) (c : config) :
  configure options = Some c ->
  (forall v, configure (options ++ [WithLimit v])
             = Some {| Immediate := Immediate c; Limit := v |})
  /\ (forall b, configure (options ++ [WithImmediate b])
                = Some {| Immediate := b; Limit := Limit c |}).
Proof.
  unfold configure. generalize {| Immediate := false; Limit := -1 |}.
  induction options as [| opt rest IH]; intros c0 H; simpl in *.
  - inversion H; subst. split; reflexivity.
  - destruct (apply opt c0) as [c1 |]; [apply IH, H | discriminate].
Qed.

Lemma configure_append_witness :
  (forall v, configure ([WithLimit 3; WithImmediate true] ++ [WithLimit v])
             = Some {| Immediate := true; Limit := v |})
  /\ (forall b, configure ([WithLimit 3; WithImmediate true]
                            ++ [WithImmediate b])
                = Some {| Immediate := b; Limit := 3 |}).
Proof.
  apply (configure_append [WithLimit 3; WithImmediate true]
           {| Immediate := true; Limit := 3 |}).
  reflexivity.
Defined.

(** ** The shape of the log *)

Section Shape.

Context {St : Type}.
Implicit Types (w : world St) (f : func St).

Lemma runLimit_loop_actions f l sched w :
  exists body, log (snd (runLimit_loop f l sched w)) = body ++ log w
               /\ Forall (fun a => loop_action a = true) body.
Proof.
  revert l w. induction sched as [| [| reason] sched IH]; intros l w;
    cbn [runLimit_loop]; destruct (0 <? l); simpl;
    try (exists []; split; [reflexivity | constructor]).
  - pose proof (invoke_log f (record (ActSelect Tick) w)) as L.
    destruct (invoke f (record (ActSelect Tick) w)) as [[e |] w'];
      simpl in L.
    + exists [ActInvoke (Some e); ActSelect Tick].
      split; [exact L | repeat constructor].
    + destruct (IH (int_dec l) w') as [body [E F]].
      exists (body ++ [ActInvoke None; ActSelect Tick]). split.
      * rewrite E, L, <- app_assoc. reflexivity.
      * apply Forall_app. split; [exact F | repeat constructor].
  - exists [ActSelect (CtxDone reason)]. split; [reflexivity |].
    repeat constructor.
Qed.

Lemma run_loop_actions f sched w :
  exists body, log (snd (run_loop f sched w)) = body ++ log w
               /\ Forall (fun a => loop_action a = true) body.
Proof.
  revert w. induction sched as [| [| reason] sched IH]; intros w;
    cbn [run_loop]; simpl;
    try (exists []; split; [reflexivity | constructor]).
  - pose proof (invoke_log f (record (ActSelect Tick) w)) as L.
    destruct (invoke f (record (ActSelect Tick) w)) as [[e |] w'];
      simpl in L.
    + exists [ActInvoke (Some e); ActSelect Tick].
      split; [exact L | repeat constructor].
    + destruct (IH w') as [body [E F]].
      exists (body ++ [ActInvoke None; ActSelect Tick]). split.
      * rewrite E, L, <- app_assoc. reflexivity.
      * apply Forall_app. split; [exact F | repeat constructor].
  - exists [ActSelect (CtxDone reason)]. split; [reflexivity |].
    repeat constructor.
Qed.



(** [with_ticker] around a loop, after the actions [init]. *)
Lemma with_ticker_shape d (body : world St -> outcome * world St) w w0 init :
  0 < d ->
  log w = init ++ log w0 ->
  init = [] \/ init = [ActInvoke None] ->
  (exists acts, log (snd (body (record (ActNewTicker d) w)))
                = acts ++ log (record (ActNewTicker d) w)
                /\ Forall (fun a => loop_action a = true) acts) ->
  exists later, log (snd (with_ticker d body w)) = later ++ log w0
                /\ run_shape (fst (with_ticker d body w)) d later.
Proof.
  intros Hd Hw Hi [acts [E F]]. unfold with_ticker.
  destruct (body (record (ActNewTicker d) w)) as [o w'] eqn:Hb.
  simpl in E. rewrite Hw in E.
  assert (S : forall stop,
             stop ++ log w'
             = (stop ++ acts ++ ActNewTicker d :: init) ++ log w0).
  { intros stop. rewrite E, <- !app_assoc. reflexivity. }
  destruct o as [err | |]; simpl.
  - exists ([ActStop] ++ acts ++ ActNewTicker d :: init).
    split; [apply (S [ActStop]) |]. right. exists init, acts. auto.
  - exists ([ActStop] ++ acts ++ ActNewTicker d :: init).
    split; [apply (S [ActStop]) |]. right. exists init, acts. auto.
  - exists ([] ++ acts ++ ActNewTicker d :: init).
    split; [apply (S []) |]. right. exists init, acts. auto.
Qed.

Lemma Run_log_shape (task : Task St) sched d options w :
  exists later, log (snd (Run task sched d options w)) = later ++ log w
                /\ run_shape (fst (Run task sched d options w)) d later.
Proof.
  assert (N : forall o : outcome, o <> Blocked ->
              exists later : list action,
                log w = later ++ log w /\ run_shape o d later).
  { intros o Ho. exists []. split; [reflexivity |]. left. auto. }
  unfold Run. destruct (d <=? 0) eqn:Hd; [apply N; discriminate |].
  apply Z.leb_gt in Hd.
  destruct task as [f |]; [| apply N; discriminate].
  destruct (configure options) as [c |]; [| apply N; discriminate].
  destruct (Limit c =? 0); [apply N; discriminate |].
  assert (I : forall (loop : world St -> outcome * world St),
             (forall w1, exists acts,
                 log (snd (loop w1)) = acts ++ log w1
                 /\ Forall (fun a => loop_action a = true) acts) ->
             forall stop : bool,
             exists later,
               log (snd (match invoke f w with
                         | (Some err, w') => (Returned (Some err), w')
                         | (None, w') =>
                             if stop then (Returned None, w')
                             else with_ticker d loop w'
                         end)) = later ++ log w
               /\ run_shape (fst (match invoke f w with
                                  | (Some err, w') => (Returned (Some err), w')
                                  | (None, w') =>
                                      if stop then (Returned None, w')
                                      else with_ticker d loop w'
                                  end)) d later).
  { intros loop Hl stop. pose proof (invoke_log f w) as L.
    destruct (invoke f w) as [[e |] w1]; simpl in L.
    - exists [ActInvoke (Some e)]. split; [exact L |].
      left. split; [discriminate | eauto].
    - destruct stop.
      + exists [ActInvoke None]. split; [exact L |].
        left. split; [discriminate | eauto].
      + apply (with_ticker_shape d loop w1 w [ActInvoke None]); auto. }
  assert (P : forall (loop : world St -> outcome * world St),
             (forall w1, exists acts,
                 log (snd (loop w1)) = acts ++ log w1
                 /\ Forall (fun a => loop_action a = true) acts) ->
             exists later,
               log (snd (with_ticker d loop w)) = later ++ log w
               /\ run_shape (fst (with_ticker d loop w)) d later).
  { intros loop Hl. apply (with_ticker_shape d loop w w []); auto. }
  destruct (0 <? Limit c); unfold runLimit, run; destruct (Immediate c).
  - apply (I _ (runLimit_loop_actions f _ sched)).
  - apply (P _ (runLimit_loop_actions f _ sched)).
  - apply (I _ (run_loop_actions f sched) false).
  - apply (P _ (run_loop_actions f sched)).
Qed.

End Shape.

Lemma count_app (p : action -> bool) (l1 l2 : list action) :
  count p (l1 ++ l2) = (count p l1 + count p l2)%nat.
Proof. unfold count. rewrite filter_app, length_app. reflexivity. Qed.

Lemma count_loop_actions (p : action -> bool) (body : list action) :
  (forall a, loop_action a = true -> p a = false) ->
  Forall (fun a => loop_action a = true) body ->
  count p body = 0%nat.
Proof.
  intros Hp F. induction F as [| a body Ha _ IH]; [reflexivity |].
  unfold count in *. simpl. rewrite (Hp a Ha). exact IH.
Qed.

(** ** Panics *)

Section Panics.

Context {St : Type}.
Implicit Types (w : world St) (f : func St).



End Panics.




(** ** The ticker *)

(** X4: one call of [Run] creates at most one ticker, and when the call is
    over (returned or panicked) it has stopped the ticker it created, on
    every path; while the call is blocked in its [select] it holds exactly
    one ticker, not yet stopped. *)
Theorem Run_ticker_released {St : Type} (task : Task St) (sched : schedule)
  (d : Z) (options : list Option) (w : world St) :
  exists created stopped,
    tickers_created (log (snd (Run task sched d options w)))
    = (tickers_created (log w) + created)%nat
    /\ tickers_stopped (log (snd (Run task sched d options w)))
       = (tickers_stopped (log w) + stopped)%nat
    /\ ticker_balance (fst (Run task sched d options w)) created stopped.
Proof.
  destruct (Run_log_shape task sched d options w) as [later [E S]].
  rewrite E. unfold tickers_created, tickers_stopped.
  rewrite !count_app.
  exists (count is_new_ticker later), (count is_stop later).
  split; [lia | split; [lia |]].
  destruct S as [[Ho [-> | [r ->]]] | [init [body [Hi [F [_ ->]]]]]].
  - destruct (fst (Run task sched d options w)); simpl; try tauto.
  - destruct (fst (Run task sched d options w)); simpl; try tauto.
  - rewrite !count_app.
    rewrite (count_loop_actions is_new_ticker body),
      (count_loop_actions is_stop body);
      try exact F; try (intros [| | |]; simpl; congruence).
    destruct Hi as [-> | ->];
      destruct (fst (Run task sched d options w)); simpl; tauto.
Qed.

(** X5: a ticker is created only with the interval given to [Run], and only
    when that interval is positive, so [time.NewTicker] is never called
    with an interval it would panic on. *)
Theorem Run_ticker_interval {St : Type} (task : Task St) (sched : schedule)
  (d : Z) (options : list Option) (w : world St) (d' : Z) :
  In (ActNewTicker d') (log (snd (Run task sched d options w))) ->
  In (ActNewTicker d') (log w) \/ (d' = d /\ 0 < d).
Proof.
  destruct (Run_log_shape task sched d options w) as [later [E S]].
  rewrite E. intros H. apply in_app_or in H. destruct H as [H | H]; [| tauto].
  right.
  destruct S as [[Ho [-> | [r ->]]] | [init [body [Hi [F [Hd ->]]]]]].
  - destruct H.
  - destruct H as [H | []]. discriminate.
  - apply in_app_or in H. destruct H as [H | H].
    + destruct (fst (Run task sched d options w)); simpl in H;
        try destruct H as [H | []]; try discriminate; destruct H.
    + apply in_app_or in H. destruct H as [H | [H | H]].
      * rewrite Forall_forall in F. specialize (F _ H). simpl in F.
        discriminate.
      * inversion H; subst. auto.
      * destruct Hi as [-> | ->]; [destruct H |].
        destruct H as [H | []]. discriminate.
Qed.

Lemma Run_ticker_interval_witness :
  In (ActNewTicker 10) (log fresh) \/ (10 = 10 /\ 0 < 10).
Proof.
  apply (Run_ticker_interval (Some counting) [Tick; CtxDone Canceled] 10
           [WithLimit 4] fresh 10).
  vm_compute. tauto.
Defined.

(** ** Invocations, ticks and the state of the task *)

Section Accounting.

Context {St : Type}.
Implicit Types (w : world St) (f : func St).

Lemma invoke_st f w : st (snd (invoke f w)) = snd (f (st w)).
Proof. unfold invoke. destruct (f (st w)); reflexivity. Qed.

Lemma invoke_ticks f w :
  ticks_taken (log (snd (invoke f w))) = ticks_taken (log w).
Proof. rewrite invoke_log. reflexivity. Qed.

Lemma after_invocations_S f k (s : St) :
  after_invocations f (S k) s = after_invocations f k (snd (f s)).
Proof. unfold after_invocations. apply Nat.iter_succ_r. Qed.

Lemma accounted_tick f w :
  let w' := snd (invoke f (record (ActSelect Tick) w)) in
  (invocations w' + ticks_taken (log w)
   = S (invocations w) + ticks_taken (log w') - 1)%nat
  /\ ticks_taken (log w') = S (ticks_taken (log w))
  /\ invocations w' = S (invocations w)
  /\ st w' = snd (f (st w)).
Proof.
  simpl. rewrite invoke_ticks, invoke_invocations, invoke_st.
  rewrite invocations_record_select.
  change (ticks_taken (log (record (ActSelect Tick) w)))
    with (S (ticks_taken (log w))).
  repeat split. lia.
Qed.

Lemma runLimit_loop_accounted f l sched :
  accounted f (runLimit_loop f l sched).
Proof.
  revert l. induction sched as [| [| reason] sched IH]; intros l w;
    cbn [runLimit_loop]; destruct (0 <? l); simpl;
    try (split; [lia | exists 0%nat; split; [lia | reflexivity]]).
  - destruct (accounted_tick f w) as [_ [T [I Hs]]]. simpl in T, I, Hs.
    destruct (invoke f (record (ActSelect Tick) w)) as [[e |] w1];
      simpl in T, I, Hs |- *.
    + split; [lia |]. exists 1%nat. split; [lia | exact Hs].
    + destruct (IH (int_dec l) w1) as [A [k [K Sk]]].
      split; [lia |]. exists (S k). split; [lia |].
      rewrite after_invocations_S, <- Hs. exact Sk.
  - split; [reflexivity |]. exists 0%nat.
    split; [symmetry; apply Nat.add_0_r | reflexivity].
Qed.

Lemma run_loop_accounted f sched : accounted f (run_loop f sched).
Proof.
  induction sched as [| [| reason] sched IH]; intros w;
    cbn [run_loop]; simpl;
    try (split; [lia | exists 0%nat; split; [lia | reflexivity]]).
  - destruct (accounted_tick f w) as [_ [T [I Hs]]]. simpl in T, I, Hs.
    destruct (invoke f (record (ActSelect Tick) w)) as [[e |] w1];
      simpl in T, I, Hs |- *.
    + split; [lia |]. exists 1%nat. split; [lia | exact Hs].
    + destruct (IH w1) as [A [k [K Sk]]].
      split; [lia |]. exists (S k). split; [lia |].
      rewrite after_invocations_S, <- Hs. exact Sk.
  - split; [reflexivity |]. exists 0%nat.
    split; [symmetry; apply Nat.add_0_r | reflexivity].
Qed.

Lemma with_ticker_accounted f d (body : world St -> outcome * world St) :
  accounted f body -> accounted f (with_ticker d body).
Proof.
  intros Hb w. specialize (Hb (record (ActNewTicker d) w)).
  unfold with_ticker.
  destruct (body (record (ActNewTicker d) w)) as [[err | |] w'];
    exact Hb.
Qed.

(** The same after the immediate invocation. *)
Lemma immediate_accounted f (body : world St -> outcome * world St)
  (stop : bool) w :
  accounted f body ->
  let r := match invoke f w with
           | (Some err, w') => (Returned (Some err), w')
           | (None, w') => if stop then (Returned None, w') else body w'
           end in
  (invocations (snd r) + ticks_taken (log w)
   = invocations w + ticks_taken (log (snd r)) + 1)%nat
  /\ exists k, invocations (snd r) = (invocations w + k)%nat
               /\ st (snd r) = after_invocations f k (st w).
Proof.
  intros Hb. pose proof (invoke_ticks f w) as T.
  pose proof (invoke_invocations f w) as I.
  pose proof (invoke_st f w) as Hs.
  destruct (invoke f w) as [[e |] w1]; simpl in T, I, Hs |- *.
  - split; [lia |]. exists 1%nat. split; [lia | exact Hs].
  - destruct stop; simpl.
    + split; [lia |]. exists 1%nat. split; [lia | exact Hs].
    + destruct (Hb w1) as [A [k [K Sk]]]. split; [lia |].
      exists (S k). split; [lia |].
      rewrite after_invocations_S, <- Hs. exact Sk.
Qed.

Lemma Run_accounted f sched d options c w :
  0 < d ->
  configure options = Some c ->
  (invocations (snd (Run (Some f) sched d options w)) + ticks_taken (log w)
   = invocations w + ticks_taken (log (snd (Run (Some f) sched d options w)))
     + immediate_invocations c)%nat
  /\ exists k,
       invocations (snd (Run (Some f) sched d options w))
       = (invocations w + k)%nat
       /\ st (snd (Run (Some f) sched d options w))
          = after_invocations f k (st w).
Proof.
  intros Hd Hc. unfold Run, immediate_invocations.
  replace (d <=? 0) with false by (symmetry; apply Z.leb_gt; lia).
  rewrite Hc. destruct (Limit c =? 0).
  - rewrite andb_false_r. simpl. split; [lia |].
    exists 0%nat. split; [lia | reflexivity].
  - rewrite andb_true_r.
    destruct (0 <? Limit c); unfold runLimit, run; destruct (Immediate c).
    + apply immediate_accounted, with_ticker_accounted,
        runLimit_loop_accounted.
    + rewrite Nat.add_0_r.
      apply with_ticker_accounted, runLimit_loop_accounted.
    + apply (immediate_accounted f _ false), with_ticker_accounted,
        run_loop_accounted.
    + rewrite Nat.add_0_r. apply with_ticker_accounted, run_loop_accounted.
Qed.

End Accounting.

(** X6: with arguments that pass validation, the invocations a call of
    [Run] makes are one for each tick it takes, plus the immediate one when
    [Immediate] is set and the limit is not 0.  So without [WithImmediate]
    no invocation is made before a tick has been received, and a tick is
    never taken without the task being invoked. *)
Theorem Run_invocations_follow_ticks {St : Type} (f : func St)
  (sched : schedule) (d : Z) (options : list Option) (c : config)
  (w : world St) :
  0 < d ->
  configure options = Some c ->
  (invocations (snd (Run (Some f) sched d options w)) + ticks_taken (log w)
   = invocations w + ticks_taken (log (snd (Run (Some f) sched d options w)))
     + immediate_invocations c)%nat.
Proof. intros Hd Hc. apply (Run_accounted f sched d options c w Hd Hc). Qed.

Lemma Run_invocations_follow_ticks_witness :
  (invocations (snd (Run (Some counting) [Tick; Tick; CtxDone Canceled] 10
                       [WithImmediate true] fresh))
   + ticks_taken (log fresh)
   = invocations fresh
     + ticks_taken (log (snd (Run (Some counting)
                                [Tick; Tick; CtxDone Canceled] 10
                                [WithImmediate true] fresh)))
     + immediate_invocations {| Immediate := true; Limit := -1 |})%nat.
Proof.
  apply (Run_invocations_follow_ticks counting [Tick; Tick; CtxDone Canceled]
           10 [WithImmediate true] {| Immediate := true; Limit := -1 |}
           fresh); [lia | reflexivity].
Defined.

(** X7: [Run] changes the state of the task's closure only by invoking the
    task: the state at the end is the initial state after as many
    invocations in a row as the call has made, each one starting from the
    state the previous one left. *)
Theorem Run_state_is_task_state {St : Type} (f : func St)
  (sched : schedule) (d : Z) (options : list Option) (w : world St) :
  exists k,
    invocations (snd (Run (Some f) sched d options w))
    = (invocations w + k)%nat
    /\ st (snd (Run (Some f) sched d options w))
       = after_invocations f k (st w).
Proof.
  destruct (Z.leb_spec d 0) as [Hd | Hd].
  - exists 0%nat. unfold Run.
    replace (d <=? 0) with true by (symmetry; apply Z.leb_le; lia).
    simpl. split; [lia | reflexivity].
  - destruct (configure options) as [c |] eqn:Hc.
    + apply (Run_accounted f sched d options c w Hd Hc).
    + exists 0%nat. unfold Run.
      replace (d <=? 0) with false by (symmetry; apply Z.leb_gt; lia).
      rewrite Hc. simpl. split; [lia | reflexivity].
Qed.

(** ** Where a returned error comes from *)

Section Provenance.

Context {St : Type}.
Implicit Types (w : world St) (f : func St).

Lemma runLimit_loop_error f l sched w e :
  fst (runLimit_loop f l sched w) = Returned (Some e) ->
  (exists s, fst (f s) = Some e) \/ In (CtxDone e) sched.
Proof.
  revert l w. induction sched as [| [| reason] sched IH]; intros l w;
    cbn [runLimit_loop]; destruct (0 <? l); simpl; try discriminate.
  - pose proof (invoke_fst f (record (ActSelect Tick) w)) as E.
    destruct (invoke f (record (ActSelect Tick) w)) as [[e' |] w'];
      simpl in E |- *.
    + intros H. inversion H; subst. left. eauto.
    + intros H. destruct (IH _ _ H); auto.
  - intros H. inversion H; subst. auto.
Qed.

Lemma run_loop_error f sched w e :
  fst (run_loop f sched w) = Returned (Some e) ->
  (exists s, fst (f s) = Some e) \/ In (CtxDone e) sched.
Proof.
  revert w. induction sched as [| [| reason] sched IH]; intros w;
    cbn [run_loop]; simpl; try discriminate.
  - pose proof (invoke_fst f (record (ActSelect Tick) w)) as E.
    destruct (invoke f (record (ActSelect Tick) w)) as [[e' |] w'];
      simpl in E |- *.
    + intros H. inversion H; subst. left. eauto.
    + intros H. destruct (IH _ H); auto.
  - intros H. inversion H; subst. auto.
Qed.

Lemma immediate_error f (rest : world St -> outcome * world St)
  (stop : bool) sched w e :
  (forall w', fst (rest w') = Returned (Some e) ->
              (exists s, fst (f s) = Some e) \/ In (CtxDone e) sched) ->
  fst (match invoke f w with
       | (Some err, w') => (Returned (Some err), w')
       | (None, w') => if stop then (Returned None, w') else rest w'
       end) = Returned (Some e) ->
  (exists s, fst (f s) = Some e) \/ In (CtxDone e) sched.
Proof.
  intros Hr. pose proof (invoke_fst f w) as E.
  destruct (invoke f w) as [[e' |] w']; simpl in E |- *.
  - intros H. inversion H; subst. left. eauto.
  - destruct stop; [discriminate | apply Hr].
Qed.

End Provenance.

(** X8: [Run] makes up no error and wraps none.  An error it returns is
    [ErrNonPositiveInterval] for a non-positive interval, [ErrNilFunction]
    for a nil task, a value the task's function returned, or the reason of a
    [ctx.Done()] case offered by the environment. *)
Theorem Run_error_provenance {St : Type} (task : Task St) (sched : schedule)
  (d : Z) (options : list Option) (w : world St) (e : error) :
  fst (Run task sched d options w) = Returned (Some e) ->
  (d <= 0 /\ e = ErrNonPositiveInterval)
  \/ (0 < d /\ task = None /\ e = ErrNilFunction)
  \/ (exists f s, task = Some f /\ fst (f s) = Some e)
  \/ In (CtxDone e) sched.
Proof.
  unfold Run. destruct (d <=? 0) eqn:Hd.
  - apply Z.leb_le in Hd. intros H. inversion H. auto.
  - apply Z.leb_gt in Hd. destruct task as [f |].
    + intros H. right. right.
      assert (R : (exists s, fst (f s) = Some e) \/ In (CtxDone e) sched).
      { destruct (configure options) as [c |]; [| discriminate].
        destruct (Limit c =? 0); [discriminate |].
        destruct (0 <? Limit c); unfold runLimit, run in H;
          destruct (Immediate c).
        - apply (immediate_error f _ _ sched w e) in H; [exact H |].
          intros w'. rewrite with_ticker_fst. apply runLimit_loop_error.
        - rewrite with_ticker_fst in H.
          apply runLimit_loop_error in H. exact H.
        - apply (immediate_error f _ false sched w e) in H; [exact H |].
          intros w'. rewrite with_ticker_fst. apply run_loop_error.
        - rewrite with_ticker_fst in H. apply run_loop_error in H. exact H. }
      destruct R as [[s Hs] | R]; [left; exists f, s; auto | auto].
    + intros H. inversion H. auto.
Qed.

Lemma Run_error_provenance_witness :
  (10 <= 0 /\ opaqueError 7 = ErrNonPositiveInterval)
  \/ (0 < 10 /\ Some (failing_at 2 (opaqueError 7)) = None
      /\ opaqueError 7 = ErrNilFunction)
  \/ (exists f s, Some (failing_at 2 (opaqueError 7)) = Some f
                  /\ fst (f s) = Some (opaqueError 7))
  \/ In (CtxDone (opaqueError 7)) [Tick; Tick; CtxDone Canceled].
Proof.
  apply (Run_error_provenance (Some (failing_at 2 (opaqueError 7)))
           [Tick; Tick; CtxDone Canceled] 10 [WithLimit 5] fresh
           (opaqueError 7)).
  reflexivity.
Defined.

(** ** Running on *)

Section RunningOn.

Context {St : Type}.
Implicit Types (w : world St) (f : func St).

Lemma run_loop_keeps_running f (m : nat) w :
  (forall s, fst (f s) = None) ->
  fst (run_loop f (repeat Tick m) w) = Blocked
  /\ invocations (snd (run_loop f (repeat Tick m) w))
     = (invocations w + m)%nat.
Proof.
  intros Hf. revert w. induction m as [| m IH]; intros w; simpl.
  - split; [reflexivity | lia].
  - pose proof (invoke_fst f (record (ActSelect Tick) w)) as E.
    pose proof (invoke_invocations f (record (ActSelect Tick) w)) as I.
    destruct (invoke f (record (ActSelect Tick) w)) as [r w1].
    simpl in E, I. rewrite Hf in E. subst r.
    destruct (IH w1) as [B N]. split; [exact B |].
    rewrite N, I, invocations_record_select. lia.
Qed.

(** A schedule shorter than the remaining count never lets the bounded
    loop see its bound: it runs as the unbounded loop does. *)
Lemma runLimit_loop_below_limit f (l : Z) sched w :
  Z.of_nat (List.length sched) < l <= int_max ->
  runLimit_loop f l sched w = run_loop f sched w.
Proof.
  revert l w. induction sched as [| [| reason] sched IH]; intros l w Hl;
    simpl in Hl; cbn [runLimit_loop run_loop];
    replace (0 <? l) with true by (symmetry; apply Z.ltb_lt; lia);
    try reflexivity.
  destruct (invoke f (record (ActSelect Tick) w)) as [[e |] w1];
    [reflexivity |].
  apply IH. rewrite int_dec_positive by lia. lia.
Qed.

End RunningOn.

(** X9: without a limit [Run] does not come to an end by itself.  With a
    negative limit and a task that always succeeds, as long as every
    [select] takes its tick the call goes on: after [m] ticks it is
    waiting for the next one, with [m] invocations made (one more when the
    immediate invocation is enabled). *)
Theorem Run_unbounded_keeps_running {St : Type} (f : func St) (m : nat)
  (d : Z) (options : list Option) (c : config) (w : world St) :
  0 < d ->
  configure options = Some c ->
  Limit c < 0 ->
  (forall s, fst (f s) = None) ->
  fst (Run (Some f) (repeat Tick m) d options w) = Blocked
  /\ invocations (snd (Run (Some f) (repeat Tick m) d options w))
     = (invocations w + m + (if Immediate c then 1 else 0))%nat.
Proof.
  intros Hd Hc Hl Hf. unfold Run.
  replace (d <=? 0) with false by (symmetry; apply Z.leb_gt; lia).
  rewrite Hc.
  replace (Limit c =? 0) with false by (symmetry; apply Z.eqb_neq; lia).
  replace (0 <? Limit c) with false by (symmetry; apply Z.ltb_ge; lia).
  unfold run. destruct (Immediate c).
  - pose proof (invoke_fst f w) as E.
    pose proof (invoke_invocations f w) as I.
    destruct (invoke f w) as [r w1]. simpl in E, I.
    rewrite Hf in E. subst r.
    rewrite with_ticker_fst, with_ticker_invocations.
    destruct (run_loop_keeps_running f m (record (ActNewTicker d) w1) Hf)
      as [B N].
    split; [exact B |]. rewrite N, invocations_record_ticker, I. lia.
  - rewrite with_ticker_fst, with_ticker_invocations.
    destruct (run_loop_keeps_running f m (record (ActNewTicker d) w) Hf)
      as [B N].
    split; [exact B |]. rewrite N, invocations_record_ticker. lia.
Qed.

Lemma Run_unbounded_keeps_running_witness :
  fst (Run (Some counting) (repeat Tick 4) 10 [WithImmediate true] fresh)
  = Blocked
  /\ invocations (snd (Run (Some counting) (repeat Tick 4) 10
                         [WithImmediate true] fresh))
     = (invocations fresh + 4 + 1)%nat.
Proof.
  apply (Run_unbounded_keeps_running counting 4 10 [WithImmediate true]
           {| Immediate := true; Limit := -1 |} fresh);
    [lia | reflexivity | simpl; lia | reflexivity].
Defined.

(** X10: the bounded variant is the unbounded one with a counter.  On a
    schedule too short for the limit to be reached (fewer [select]s, plus
    the immediate invocation if enabled, than the limit) a run with a
    positive limit is the same, outcome and world, as the run with the same
    [Immediate] flag and no limit. *)
Theorem Run_bounded_below_limit {St : Type} (task : Task St)
  (sched : schedule) (d : Z) (options options' : list Option)
  (c c' : config) (w : world St) :
  configure options = Some c ->
  configure options' = Some c' ->
  Immediate c = Immediate c' ->
  Limit c' < 0 ->
  Z.of_nat (List.length sched) + (if Immediate c then 1 else 0) < Limit c
    <= int_max ->
  Run task sched d options w = Run task sched d options' w.
Proof.
  intros Hc Hc' Hi Hl' Hl. unfold Run. rewrite Hc, Hc'.
  destruct (d <=? 0); [reflexivity |].
  destruct task as [f |]; [| reflexivity].
  replace (Limit c' =? 0) with false by (symmetry; apply Z.eqb_neq; lia).
  replace (0 <? Limit c') with false by (symmetry; apply Z.ltb_ge; lia).
  assert (P : 0 < Limit c) by (destruct (Immediate c); lia).
  replace (Limit c =? 0) with false by (symmetry; apply Z.eqb_neq; lia).
  replace (0 <? Limit c) with true by (symmetry; apply Z.ltb_lt; lia).
  unfold runLimit, run. rewrite <- Hi. destruct (Immediate c).
  - destruct (invoke f w) as [[e |] w1]; [reflexivity |].
    rewrite int_dec_positive by lia.
    replace (Limit c - 1 =? 0) with false by (symmetry; apply Z.eqb_neq; lia).
    unfold with_ticker. rewrite runLimit_loop_below_limit by lia.
    reflexivity.
  - unfold with_ticker. rewrite runLimit_loop_below_limit by lia.
    reflexivity.
Qed.

Lemma Run_bounded_below_limit_witness :
  Run (Some (failing_at 3 (opaqueError 7))) [Tick; Tick; Tick; Tick] 10
      [WithLimit 6; WithImmediate true] fresh
  = Run (Some (failing_at 3 (opaqueError 7))) [Tick; Tick; Tick; Tick] 10
      [WithImmediate true] fresh.
Proof.
  apply (Run_bounded_below_limit (Some (failing_at 3 (opaqueError 7)))
           [Tick; Tick; Tick; Tick] 10
           [WithLimit 6; WithImmediate true] [WithImmediate true]
           {| Immediate := true; Limit := 6 |}
           {| Immediate := true; Limit := -1 |} fresh);
    [reflexivity | reflexivity | reflexivity | simpl; lia
     | simpl; unfold int_max; lia].
Defined.

(** ** Waiting and cancellation under a limit *)

Section UnderLimit.

Context {St : Type}.
Implicit Types (w : world St) (f : func St).

(** The bounded loop waits, or takes the context's case, only while its
    remaining count is positive. *)
Lemma runLimit_loop_waits_below f (l : Z) sched w :
  0 <= l <= int_max ->
  (fst (runLimit_loop f l sched w) = Blocked
   \/ exists reason l', log (snd (runLimit_loop f l sched w))
                        = ActSelect (CtxDone reason) :: l'
                        /\ fst (runLimit_loop f l sched w)
                           = Returned (Some reason)) ->
  (invocations (snd (runLimit_loop f l sched w))
   < invocations w + Z.to_nat l)%nat.
Proof.
  revert l w. induction sched as [| [| reason] sched IH]; intros l w Hl;
    cbn [runLimit_loop]; destruct (0 <? l) eqn:Hp; simpl;
    try (intros [H | [r [l' [_ H]]]]; discriminate);
    apply Z.ltb_lt in Hp.
  - lia.
  - pose proof (invoke_invocations f (record (ActSelect Tick) w)) as I.
    pose proof (invoke_log f (record (ActSelect Tick) w)) as L.
    destruct (invoke f (record (ActSelect Tick) w)) as [[e |] w1];
      simpl in I, L |- *.
    + intros [H | [r [l' [H _]]]]; [discriminate |].
      rewrite L in H. discriminate.
    + rewrite int_dec_positive by lia. intros H.
      specialize (IH (l - 1) w1 ltac:(lia) H).
      rewrite I, invocations_record_select in IH. lia.
  - intros _. rewrite invocations_record_select. lia.
Qed.

End UnderLimit.

(** X11: under a limit [n > 0] (an [int]) and with arguments that pass
    validation, [Run] is found waiting in its [select], or returns the
    context's reason from it, only with fewer than [n] invocations made:
    once the [n]-th invocation is made there is no further wait and the
    context is not looked at again. *)
Theorem Run_limit_waits_below_limit {St : Type} (f : func St)
  (sched : schedule) (d : Z) (options : list Option) (c : config)
  (w : world St) :
  0 < d ->
  configure options = Some c ->
  0 < Limit c <= int_max ->
  (fst (Run (Some f) sched d options w) = Blocked
   \/ exists reason l',
        log (snd (Run (Some f) sched d options w))
        = ActStop :: ActSelect (CtxDone reason) :: l'
        /\ fst (Run (Some f) sched d options w) = Returned (Some reason)) ->
  (invocations (snd (Run (Some f) sched d options w))
   < invocations w + Z.to_nat (Limit c))%nat.
Proof.
  intros Hd Hc Hl. unfold Run.
  replace (d <=? 0) with false by (symmetry; apply Z.leb_gt; lia).
  rewrite Hc.
  replace (Limit c =? 0) with false by (symmetry; apply Z.eqb_neq; lia).
  replace (0 <? Limit c) with true by (symmetry; apply Z.ltb_lt; lia).
  assert (T : forall l w1,
             0 <= l <= int_max ->
             (fst (with_ticker d (runLimit_loop f l sched) w1) = Blocked
              \/ exists reason l',
                   log (snd (with_ticker d (runLimit_loop f l sched) w1))
                   = ActStop :: ActSelect (CtxDone reason) :: l'
                   /\ fst (with_ticker d (runLimit_loop f l sched) w1)
                      = Returned (Some reason)) ->
             (invocations (snd (with_ticker d (runLimit_loop f l sched) w1))
              < invocations w1 + Z.to_nat l)%nat).
  { intros l w1 Hl1 H.
    rewrite with_ticker_invocations.
    pose proof (runLimit_loop_waits_below f l sched
                  (record (ActNewTicker d) w1) Hl1) as B.
    rewrite invocations_record_ticker in B. apply B.
    rewrite with_ticker_fst in H. unfold with_ticker in H.
    destruct (runLimit_loop f l sched (record (ActNewTicker d) w1))
      as [[err | |] w2]; simpl in H |- *.
    - destruct H as [H | [r [l' [H1 H2]]]]; [discriminate |].
      right. exists r, l'. inversion H1. auto.
    - destruct H as [H | [r [l' [_ H]]]]; discriminate.
    - left. reflexivity. }
  unfold runLimit. destruct (Immediate c).
  - pose proof (invoke_invocations f w) as I.
    pose proof (invoke_log f w) as L.
    destruct (invoke f w) as [[e |] w1]; simpl in I, L |- *.
    + intros [H | [r [l' [H _]]]]; [discriminate |].
      rewrite L in H. discriminate.
    + rewrite int_dec_positive by lia.
      destruct (Limit c - 1 =? 0); simpl.
      * intros [H | [r [l' [H _]]]]; [discriminate |].
        rewrite L in H. discriminate.
      * intros H. apply T in H; lia.
  - intros H. apply T in H; lia.
Qed.

Lemma Run_limit_waits_below_limit_witness :
  (invocations (snd (Run (Some counting) [Tick; CtxDone Canceled; Tick] 10
                       [WithLimit 2] fresh))
   < invocations fresh + Z.to_nat 2)%nat.
Proof.
  apply (Run_limit_waits_below_limit counting [Tick; CtxDone Canceled; Tick]
           10 [WithLimit 2] {| Immediate := false; Limit := 2 |} fresh);
    [lia | reflexivity | simpl; unfold int_max; lia |].
  right. eexists. eexists. split; reflexivity.
Defined.

(** ** The schedule beyond the return *)

Section Beyond.

Context {St : Type}.
Implicit Types (w : world St) (f : func St).

Lemma runLimit_loop_over f l pre post w :
  fst (runLimit_loop f l pre w) <> Blocked ->
  runLimit_loop f l (pre ++ post) w = runLimit_loop f l pre w.
Proof.
  revert l w. induction pre as [| [| reason] pre IH]; intros l w;
    cbn [app runLimit_loop]; destruct (0 <? l) eqn:Hp; simpl;
    try reflexivity; try congruence.
  - destruct post as [| s post]; cbn [runLimit_loop]; rewrite Hp;
      reflexivity.
  - destruct (invoke f (record (ActSelect Tick) w)) as [[e |] w1];
      [reflexivity | apply IH].
Qed.

Lemma run_loop_over f pre post w :
  fst (run_loop f pre w) <> Blocked ->
  run_loop f (pre ++ post) w = run_loop f pre w.
Proof.
  revert w. induction pre as [| [| reason] pre IH]; intros w;
    cbn [app run_loop]; simpl; try reflexivity; try congruence.
  destruct (invoke f (record (ActSelect Tick) w)) as [[e |] w1];
    [reflexivity | apply IH].
Qed.

Lemma with_ticker_over d (body : schedule -> world St -> outcome * world St)
  pre post w :
  (forall w1, fst (body pre w1) <> Blocked ->
              body (pre ++ post) w1 = body pre w1) ->
  fst (with_ticker d (body pre) w) <> Blocked ->
  with_ticker d (body (pre ++ post)) w = with_ticker d (body pre) w.
Proof.
  intros Hb H. rewrite with_ticker_fst in H. unfold with_ticker.
  rewrite (Hb _ H). reflexivity.
Qed.

End Beyond.

(** X12: once [Run] is over, what the environment does next is of no
    consequence: if on the schedule [pre] the call has returned or
    panicked, then on any longer schedule it does exactly the same, with
    the same final world. *)
Theorem Run_over_ignores_schedule {St : Type} (task : Task St)
  (pre post : schedule) (d : Z) (options : list Option) (w : world St) :
  fst (Run task pre d options w) <> Blocked ->
  Run task (pre ++ post) d options w = Run task pre d options w.
Proof.
  unfold Run. destruct (d <=? 0); [reflexivity |].
  destruct task as [f |]; [| reflexivity].
  destruct (configure options) as [c |]; [| reflexivity].
  destruct (Limit c =? 0); [reflexivity |].
  pose proof (fun l => with_ticker_over d (runLimit_loop f l) pre post)
    as Bounded.
  pose proof (with_ticker_over d (run_loop f) pre post) as Unbounded.
  destruct (0 <? Limit c); unfold runLimit, run; destruct (Immediate c).
  - destruct (invoke f w) as [[e |] w1]; [reflexivity |].
    destruct (int_dec (Limit c) =? 0); [reflexivity |].
    apply Bounded. intros w2. apply runLimit_loop_over.
  - apply Bounded. intros w2. apply runLimit_loop_over.
  - destruct (invoke f w) as [[e |] w1]; [reflexivity |].
    apply Unbounded. intros w2. apply run_loop_over.
  - apply Unbounded. intros w2. apply run_loop_over.
Qed.

Lemma Run_over_ignores_schedule_witness :
  Run (Some counting) ([Tick; Tick] ++ [Tick; CtxDone Canceled]) 10
      [WithLimit 2] fresh
  = Run (Some counting) [Tick; Tick] 10 [WithLimit 2] fresh.
Proof.
  apply (Run_over_ignores_schedule (Some counting) [Tick; Tick]
           [Tick; CtxDone Canceled] 10 [WithLimit 2] fresh).
  discriminate.
Defined.

(** ** A tick at the wait point *)

Section TickAtWait.

Context {St : Type}.
Implicit Types (w : world St) (f : func St).

Lemma invoke_eta f w : invoke f w = (fst (f (st w)), snd (invoke f w)).
Proof. unfold invoke. destruct (f (st w)); reflexivity. Qed.

Lemma with_ticker_still_blocked d (body : world St -> outcome * world St)
  w w1 :
  body (record (ActNewTicker d) w) = (Blocked, w1) ->
  with_ticker d body w = (Blocked, w1).
Proof. unfold with_ticker. intros ->. reflexivity. Qed.

Lemma runLimit_loop_tick f l pre w w1 :
  runLimit_loop f l pre w = (Blocked, w1) ->
  (forall e post,
      fst (f (st w1)) = Some e ->
      runLimit_loop f l (pre ++ Tick :: post) w
      = (Returned (Some e), snd (invoke f (record (ActSelect Tick) w1))))
  /\ (fst (f (st w1)) = None ->
      exists o, (o = Blocked \/ o = Returned None)
                /\ runLimit_loop f l (pre ++ [Tick]) w
                   = (o, snd (invoke f (record (ActSelect Tick) w1)))).
Proof.
  revert l w. induction pre as [| [| reason] pre IH]; intros l w;
    cbn [app runLimit_loop]; destruct (0 <? l); try discriminate.
  - intros H. inversion H; subst. clear H.
    rewrite (invoke_eta f (record (ActSelect Tick) w1)). simpl. split.
    + intros e post ->. reflexivity.
    + intros ->. destruct (0 <? int_dec l); eauto.
  - destruct (invoke f (record (ActSelect Tick) w)) as [[e |] w'];
      [discriminate | apply IH].
Qed.

Lemma run_loop_tick f pre w w1 :
  run_loop f pre w = (Blocked, w1) ->
  (forall e post,
      fst (f (st w1)) = Some e ->
      run_loop f (pre ++ Tick :: post) w
      = (Returned (Some e), snd (invoke f (record (ActSelect Tick) w1))))
  /\ (fst (f (st w1)) = None ->
      exists o, (o = Blocked \/ o = Returned None)
                /\ run_loop f (pre ++ [Tick]) w
                   = (o, snd (invoke f (record (ActSelect Tick) w1)))).
Proof.
  revert w. induction pre as [| [| reason] pre IH]; intros w;
    cbn [app run_loop]; try discriminate.
  - intros H. inversion H; subst. clear H.
    rewrite (invoke_eta f (record (ActSelect Tick) w1)). simpl. split.
    + intros e post ->. reflexivity.
    + intros ->. eauto.
  - destruct (invoke f (record (ActSelect Tick) w)) as [[e |] w'];
      [discriminate | apply IH].
Qed.

Lemma with_ticker_tick f d (body : schedule -> world St -> outcome * world St)
  pre w w1 :
  (forall w0,
      body pre w0 = (Blocked, w1) ->
      (forall e post,
          fst (f (st w1)) = Some e ->
          body (pre ++ Tick :: post) w0
          = (Returned (Some e), snd (invoke f (record (ActSelect Tick) w1))))
      /\ (fst (f (st w1)) = None ->
          exists o, (o = Blocked \/ o = Returned None)
                    /\ body (pre ++ [Tick]) w0
                       = (o, snd (invoke f (record (ActSelect Tick) w1))))) ->
  with_ticker d (body pre) w = (Blocked, w1) ->
  (forall e post,
      fst (f (st w1)) = Some e ->
      with_ticker d (body (pre ++ Tick :: post)) w
      = (Returned (Some e),
         record ActStop (snd (invoke f (record (ActSelect Tick) w1)))))
  /\ (fst (f (st w1)) = None ->
      with_ticker d (body (pre ++ [Tick])) w
      = (Blocked, snd (invoke f (record (ActSelect Tick) w1)))
      \/ with_ticker d (body (pre ++ [Tick])) w
         = (Returned None,
            record ActStop (snd (invoke f (record (ActSelect Tick) w1))))).
Proof.
  intros Hb H. apply with_ticker_blocked in H.
  destruct (Hb _ H) as [Hf Hs]. split.
  - intros e post He. apply with_ticker_returned, Hf, He.
  - intros Hn. destruct (Hs Hn) as [o [[-> | ->] E]].
    + left. apply with_ticker_still_blocked, E.
    + right. apply with_ticker_returned, E.
Qed.

End TickAtWait.

(** X13: let a run stand at its wait point: on the schedule [pre] the call
    is blocked, in world [w1].  If the next [select] takes the tick, the
    task is invoked once, on the state it was left in.  If that invocation
    fails, [Run] returns its error, after stopping the ticker, whatever the
    schedule holds next.  If it succeeds, the call either waits again or,
    the limit being reached, stops the ticker and returns nil. *)
Theorem Run_tick_invokes_once {St : Type} (f : func St)
  (pre : schedule) (d : Z) (options : list Option) (w w1 : world St) :
  Run (Some f) pre d options w = (Blocked, w1) ->
  (forall e post,
      fst (f (st w1)) = Some e ->
      Run (Some f) (pre ++ Tick :: post) d options w
      = (Returned (Some e),
         record ActStop (snd (invoke f (record (ActSelect Tick) w1)))))
  /\ (fst (f (st w1)) = None ->
      Run (Some f) (pre ++ [Tick]) d options w
      = (Blocked, snd (invoke f (record (ActSelect Tick) w1)))
      \/ Run (Some f) (pre ++ [Tick]) d options w
         = (Returned None,
            record ActStop (snd (invoke f (record (ActSelect Tick) w1))))).
Proof.
  unfold Run. destruct (d <=? 0); [discriminate |].
  destruct (configure options) as [c |]; [| discriminate].
  destruct (Limit c =? 0); [discriminate |].
  pose proof (fun l w0 => with_ticker_tick f d (runLimit_loop f l) pre w0 w1
                (fun w2 => runLimit_loop_tick f l pre w2 w1)) as Bounded.
  pose proof (fun w0 => with_ticker_tick f d (run_loop f) pre w0 w1
                (fun w2 => run_loop_tick f pre w2 w1)) as Unbounded.
  destruct (0 <? Limit c); unfold runLimit, run; destruct (Immediate c).
  - destruct (invoke f w) as [[e |] w0]; [discriminate |].
    destruct (int_dec (Limit c) =? 0); [discriminate | apply Bounded].
  - apply Bounded.
  - destruct (invoke f w) as [[e |] w0]; [discriminate | apply Unbounded].
  - apply Unbounded.
Qed.

Lemma Run_tick_invokes_once_witness :
  Run (Some (failing_at 3 (opaqueError 7)))
      ([Tick; Tick] ++ Tick :: [Tick; Tick]) 10 [] fresh
  = (Returned (Some (opaqueError 7)),
     record ActStop
       (snd (invoke (failing_at 3 (opaqueError 7))
               (record (ActSelect Tick)
                  (snd (Run (Some (failing_at 3 (opaqueError 7)))
                          [Tick; Tick] 10 [] fresh)))))).
Proof.
  apply (Run_tick_invokes_once (failing_at 3 (opaqueError 7)) [Tick; Tick]
           10 [] fresh
           (snd (Run (Some (failing_at 3 (opaqueError 7))) [Tick; Tick] 10
                   [] fresh)));
    reflexivity.
Defined.

(** ** Telling the validation errors apart *)

(** X14: the error of a refused call tells which argument was wrong.  For a
    non-positive interval the returned error matches
    [ErrNonPositiveInterval] under [errors.Is] and not [ErrNilFunction];
    for a nil task with a positive interval it is the other way round; and
    the base [ErrInvalidArgument] itself matches neither of the two. *)
Theorem Run_validation_error_tells_argument {St : Type} (task : Task St)
  (sched : schedule) (d : Z) (options : list Option) (w : world St) :
  (d <= 0 ->
   exists e, fst (Run task sched d options w) = Returned (Some e)
             /\ Is e ErrNonPositiveInterval = true
             /\ Is e ErrNilFunction = false)
  /\ (0 < d -> task = None ->
      exists e, fst (Run task sched d options w) = Returned (Some e)
                /\ Is e ErrNilFunction = true
                /\ Is e ErrNonPositiveInterval = false)
  /\ Is ErrInvalidArgument ErrNonPositiveInterval = false
  /\ Is ErrInvalidArgument ErrNilFunction = false.
Proof.
  unfold Run. repeat split.
  - intros Hd. apply Z.leb_le in Hd. rewrite Hd.
    exists ErrNonPositiveInterval. repeat split.
  - intros Hd ->. apply Z.leb_gt in Hd. rewrite Hd.
    exists ErrNilFunction. repeat split.
Qed.

Lemma Run_validation_error_tells_argument_witness :
  (exists e, fst (Run (Some counting) [Tick] 0 [] fresh) = Returned (Some e)
             /\ Is e ErrNonPositiveInterval = true
             /\ Is e ErrNilFunction = false)
  /\ (exists e, fst (Run (@None (func nat)) [Tick] 2 [] fresh)
                = Returned (Some e)
                /\ Is e ErrNilFunction = true
                /\ Is e ErrNonPositiveInterval = false).
Proof.
  split.
  - apply (Run_validation_error_tells_argument (Some counting) [Tick] 0 []
             fresh). lia.
  - apply (Run_validation_error_tells_argument (@None (func nat)) [Tick] 2 []
             fresh); [lia | reflexivity].
Defined.
